(** * contentful.js: the delivery client API and its link resolution

    A shallow embedding of [src/lib/create-contentful-api.ts].  JavaScript
    values are a tree type [Value]; asynchronous functions are run
    sequentially in a small state-and-exception monad over the shared
    [http] instance; the link resolver imported from
    [./utils/resolve-circular] is modelled from the specification, with the
    resolved entities kept in a store keyed by [(kind, id)] so that object
    identity is identity of store cells. *)

From Stdlib Require Import ZArith.
From stdpp Require Import gmap strings list fin_maps.

#[local] Set Warnings "-clear-no-such-hyp".

Local Open Scope string_scope.
Local Open Scope Z_scope.

(** ** JavaScript values *)

(** Parsed JSON bodies, error objects and query objects are all JavaScript
    values.  Two field shapes of the content API are kept as tags rather than
    rediscovered by structural inspection: a reference marker
    [{sys: {type: 'Link', linkType, id}}] is [VLink linkType id], and a
    locale-keyed mapping is [VLocale].  [VRef kind id] does not occur in raw
    bodies: it is the resolver's pointer to the shared entity stored under
    [(kind, id)]. *)
#[local] Unset Elimination Schemes.
Inductive Value :=
| VUndefined
| VNull
| VBool (b : bool)
| VNum (n : Z)
| VStr (s : string)
| VArr (elems : list Value)
| VObj (props : list (string * Value))
| VLocale (by_locale : list (string * Value))
| VLink (linkType id : string)
| VRef (kind id : string).
#[local] Set Elimination Schemes.

Abbreviation Props := (list (string * Value)).
Abbreviation Key := (string * string)%type.

(** The first binding of [name], as property access finds it. *)
Fixpoint get_prop (name : string) (ps : Props) : option Value :=
  match ps with
  | [] => None
  | (n, v) :: rest => if decide (n = name) then Some v else get_prop name rest
  end.

(** [obj[name] = v]: overwrite in place, or append a new property. *)
Fixpoint set_prop (name : string) (v : Value) (ps : Props) : Props :=
  match ps with
  | [] => [(name, v)]
  | (n, w) :: rest =>
      if decide (n = name) then (n, v) :: rest else (n, w) :: set_prop name v rest
  end.

(** [{...a, ...b}] on property lists. *)
Definition spread (a b : Props) : Props :=
  foldl (fun acc '(n, v) => set_prop n v acc) a b.

(** [v.name]; reading a property of a primitive gives [undefined]. *)
Definition prop (name : string) (v : Value) : Value :=
  match v with
  | VObj ps | VLocale ps => default VUndefined (get_prop name ps)
  | VLink linkType id =>
      if decide (name = "sys")
      then VObj [("type", VStr "Link"); ("linkType", VStr linkType); ("id", VStr id)]
      else VUndefined
  | _ => VUndefined
  end.

(** JavaScript truthiness, as [if (x)] and [!x] test it. *)
Definition truthy (v : Value) : bool :=
  match v with
  | VUndefined | VNull => false
  | VBool b => b
  | VNum n => negb (n =? 0)
  | VStr s => negb (String.eqb s "")
  | _ => true
  end.

(** The properties a spread [...v] copies: those of an object, none of
    [undefined], [null] or a primitive. *)
Definition own_props (v : Value) : Props :=
  match v with
  | VObj ps | VLocale ps => ps
  | _ => []
  end.

(** A default parameter [x = d] takes [d] exactly when [x] is [undefined]. *)
Definition or_default (d v : Value) : Value :=
  match v with VUndefined => d | _ => v end.

(** [new Error(msg)]. *)
Definition mkError (msg : string) : Value := VObj [("message", VStr msg)].

(** ** The link resolver

    The client imports [resolveCircular] from [./utils/resolve-circular],
    which is not among the sources under [src/]; the resolver below follows
    the specification (sections 3, 4.1 and 6). *)

(** The lookup index and, at the same time, the shared store: every
    addressable entity of one response under its [(kind, id)].  A [VRef]
    points into it. *)
Abbreviation Store := (gmap (string * string) Value).

(** Modelled from the spec: the state of the resolver of
    [utils/resolve-circular] (missing from [src/]): the lookup index with
    the entities mutated in place, and the cache of fully walked ones. *)
Record RState := { store : Store; resolved : gset (string * string) }.

(** Modelled from the spec: the identity [(type, id)] of a resolvable
    item, as the resolver of [utils/resolve-circular] (missing from [src/])
    keys it. *)
Definition item_key (item : Value) : option Key :=
  match prop "type" (prop "sys" item), prop "id" (prop "sys" item) with
  | VStr t, VStr i => Some (t, i)
  | _, _ => None
  end.

(** Modelled from the spec: the identity of an item of the includes
    bucket [kind] (resolver of [utils/resolve-circular], missing from
    [src/]): the includes table maps the entity kind to its items. *)
Definition included_key (kind : string) (item : Value) : option Key :=
  match prop "id" (prop "sys" item) with
  | VStr i => Some (kind, i)
  | _ => None
  end.

(** Modelled from the spec: indexing of the resolver of
    [utils/resolve-circular] (missing from [src/]).  An entity enters the
    index unless its identity is already taken: the earlier entry wins. *)
Definition add_entity (k : option Key) (item : Value) (idx : Store) : Store :=
  match k with
  | Some k => match idx !! k with
              | None => <[k := item]> idx
              | Some _ => idx
              end
  | None => idx
  end.

(** Modelled from the spec: the primary items enter the index (resolver of
    [utils/resolve-circular], missing from [src/]). *)
Definition index_items (items : list Value) (idx : Store) : Store :=
  foldl (fun acc item => add_entity (item_key item) item acc) idx items.

(** Modelled from the spec: one bucket of [includes] enters the index
    (resolver of [utils/resolve-circular], missing from [src/]). *)
Definition index_bucket (idx : Store) (bucket : string * Value) : Store :=
  match bucket with
  | (kind, VArr entities) =>
      foldl (fun acc item => add_entity (included_key kind item) item acc) idx entities
  | _ => idx
  end.

(** Modelled from the spec: step 1 of the resolver of
    [utils/resolve-circular] (missing from [src/]).  One index over [items]
    and every bucket of [includes]; the primary items are entered first and
    so take precedence. *)
Definition build_index (items : list Value) (includes : Props) : Store :=
  foldl index_bucket (index_items items ∅) includes.

(** Modelled from the spec: the [fields] mapping of a resolvable item,
    when it has one (resolver of [utils/resolve-circular], missing from
    [src/]). *)
Definition entity_fields (item : Value) : option Props :=
  match item with
  | VObj ps => match get_prop "fields" ps with
               | Some (VObj fs) => Some fs
               | _ => None
               end
  | _ => None
  end.

(** Modelled from the spec: the same entity with its [fields] rewritten in
    place (resolver of [utils/resolve-circular], missing from [src/]). *)
Definition with_fields (fs : Props) (item : Value) : Value :=
  match item with
  | VObj ps => VObj (set_prop "fields" (VObj fs) ps)
  | _ => item
  end.

(** One step of the walk: a slot value (or nothing) and the new state, if
    the step returns. *)
Abbreviation Walk := (Value -> RState -> option (option Value * RState)).

(** Modelled from the spec: walking an ordered sequence (resolver of
    [utils/resolve-circular], missing from [src/]); a slot whose walk yields
    nothing is dropped. *)
Definition walk_list (w : Walk) : list Value -> RState -> option (list Value * RState) :=
  fix go l st :=
    match l with
    | [] => Some ([], st)
    | v :: rest =>
        match w v st with
        | None => None
        | Some (ov, st1) =>
            match go rest st1 with
            | None => None
            | Some (rest', st2) =>
                Some (match ov with Some v' => v' :: rest' | None => rest' end, st2)
            end
        end
    end.

(** Modelled from the spec: walking a mapping, the fields of an entity or
    the locales of one field (resolver of [utils/resolve-circular], missing
    from [src/]); a key whose walk yields nothing is deleted. *)
Definition walk_props (w : Walk) : Props -> RState -> option (Props * RState) :=
  fix go ps st :=
    match ps with
    | [] => Some ([], st)
    | (n, v) :: rest =>
        match w v st with
        | None => None
        | Some (ov, st1) =>
            match go rest st1 with
            | None => None
            | Some (rest', st2) =>
                Some (match ov with Some v' => (n, v') :: rest' | None => rest' end, st2)
            end
        end
    end.

Section Walk.
(** The unresolved-link policy. *)
Variable removeUnresolved : bool.
(** Expansion of a target that is neither on the active path nor cached. *)
Variable descend : gset Key -> Key -> RState -> option RState.

(** Modelled from the spec: step 2 of the resolver of
    [utils/resolve-circular] (missing from [src/]) on one field value.  The
    result is the value to store in the slot, or nothing when the slot is
    to be removed; the outer [option] is [None] only when [descend] gives
    up.  A target on the active path or in the cache is linked without
    descending into it. *)
Fixpoint walk (active : gset Key) (v : Value) (st : RState)
  : option (option Value * RState) :=
  match v with
  | VLink linkType id =>
      match store st !! (linkType, id) with
      | None => Some (if removeUnresolved then None else Some v, st)
      | Some _ =>
          if decide ((linkType, id) ∈ active) then Some (Some (VRef linkType id), st)
          else if decide ((linkType, id) ∈ resolved st) then Some (Some (VRef linkType id), st)
          else match descend active (linkType, id) st with
               | None => None
               | Some st' => Some (Some (VRef linkType id), st')
               end
      end
  | VArr elems =>
      match walk_list (walk active) elems st with
      | None => None
      | Some (elems', st') => Some (Some (VArr elems'), st')
      end
  | VLocale by_locale =>
      match walk_props (walk active) by_locale st with
      | None => None
      | Some (by_locale', st') => Some (Some (VLocale by_locale'), st')
      end
  | _ => Some (Some v, st)
  end.
End Walk.

(** Modelled from the spec: the recursion of the resolver of
    [utils/resolve-circular] (missing from [src/]) into a target.  The
    fields of the entity stored under [k] are walked with [k] on the active
    path and written back into the same store cell, and [k] is cached as
    resolved.  [fuel] bounds the depth of the active path. *)
Fixpoint expand (removeUnresolved : bool) (fuel : nat)
    (active : gset Key) (k : Key) (st : RState) : option RState :=
  match fuel with
  | O => None
  | S fuel' =>
      match store st !! k with
      | None => Some st
      | Some item =>
          match entity_fields item with
          | None => Some {| store := store st; resolved := {[k]} ∪ resolved st |}
          | Some fs =>
              match walk_props (walk removeUnresolved (expand removeUnresolved fuel') ({[k]} ∪ active))
                      fs st with
              | None => None
              | Some (fs', st') =>
                  Some {| store := <[k := with_fields fs' item]> (store st');
                          resolved := {[k]} ∪ resolved st' |}
              end
          end
      end
  end.

(** Modelled from the spec: step 2 of the resolver of
    [utils/resolve-circular] (missing from [src/]) on one primary item.  It
    is resolved like a marker pointing at it: through the index, so that
    duplicates share one instance.  An item without an identity is not
    addressable; its fields are walked where it stands. *)
Definition resolve_item (removeUnresolved : bool) (fuel : nat) : Walk :=
  fun item st =>
    match item_key item with
    | Some (kind, id) =>
        walk removeUnresolved (expand removeUnresolved fuel) ∅ (VLink kind id) st
    | None =>
        match entity_fields item with
        | None => Some (Some item, st)
        | Some fs =>
            match walk_props (walk removeUnresolved (expand removeUnresolved fuel) ∅) fs st with
            | None => None
            | Some (fs', st') => Some (Some (with_fields fs' item), st')
            end
        end
    end.

(** A value together with the store its [VRef]s point into: what the
    resolver hands back. *)
Record Resolved := { r_val : Value; r_store : Store }.

(** A raw value: no pointer, no store. *)
Definition unlinked (data : Value) : Resolved := {| r_val := data; r_store := ∅ |}.

(** Modelled from the spec: step 4 of the resolver of
    [utils/resolve-circular] (missing from [src/]).  The payload with its
    [items] replaced; everything else passes through. *)
Definition with_items (items : list Value) (data : Value) : Value :=
  match data with
  | VObj ps => VObj (set_prop "items" (VArr items) ps)
  | _ => data
  end.

(** Modelled from the spec: [resolve(payload, {removeUnresolved})] of
    [utils/resolve-circular] (missing from [src/]), steps 1 to 4.  The fuel
    is the number of addressable entities; [None] would mean that it ran
    out. *)
Definition resolve_links (removeUnresolved : bool) (data : Value) : option Resolved :=
  match data, prop "items" data with
  | VObj _, VArr items =>
      let idx := build_index items (own_props (prop "includes" data)) in
      match walk_list (resolve_item removeUnresolved (size idx)) items
              {| store := idx; resolved := ∅ |} with
      | None => None
      | Some (items', st) =>
          Some {| r_val := with_items items' data; r_store := store st |}
      end
  | _, _ => Some (unlinked data)
  end.

(** Modelled from the spec: [resolveCircular] of [utils/resolve-circular]
    (missing from [src/]), the public resolution entry point.  With
    [resolveLinks] off the resolver is skipped and the raw payload returned.
    [resolve_links] always returns (see [resolve_links_total]), so the
    [default] is never used. *)
Definition resolveCircular (data : Value) (resolveLinks removeUnresolved : bool) : Resolved :=
  if resolveLinks
  then default (unlinked data) (resolve_links removeUnresolved data)
  else unlinked data.

(** Reading through a pointer of the resolved graph. *)
Definition deref (st : Store) (v : Value) : Value :=
  match v with
  | VRef kind id => default VUndefined (st !! (kind, id))
  | _ => v
  end.

(** [v.fields.name] in a resolved graph. *)
Definition field (st : Store) (name : string) (v : Value) : Value :=
  prop name (prop "fields" (deref st v)).

(** *** What resolution computes *)

(** Structural induction on values, through arrays and mappings. *)
Section ValueInduction.
Variable P : Value -> Prop.
Hypothesis Hundefined : P VUndefined.
Hypothesis Hnull : P VNull.
Hypothesis Hbool : forall b, P (VBool b).
Hypothesis Hnum : forall n, P (VNum n).
Hypothesis Hstr : forall s, P (VStr s).
Hypothesis Harr : forall elems, Forall P elems -> P (VArr elems).
Hypothesis Hobj : forall props, Forall (fun p => P p.2) props -> P (VObj props).
Hypothesis Hlocale : forall m, Forall (fun p => P p.2) m -> P (VLocale m).
Hypothesis Hlink : forall linkType id, P (VLink linkType id).
Hypothesis Href : forall kind id, P (VRef kind id).

Fixpoint Value_ind (v : Value) : P v :=
  let fix all (l : list Value) : Forall P l :=
    match l with
    | [] => List.Forall_nil _
    | x :: rest => List.Forall_cons _ x rest (Value_ind x) (all rest)
    end in
  let fix all_props (ps : Props) : Forall (fun p => P p.2) ps :=
    match ps with
    | [] => List.Forall_nil _
    | p :: rest =>
        List.Forall_cons (fun p => P p.2) p rest (Value_ind p.2) (all_props rest)
    end in
  match v with
  | VUndefined => Hundefined
  | VNull => Hnull
  | VBool b => Hbool b
  | VNum n => Hnum n
  | VStr s => Hstr s
  | VArr elems => Harr elems (all elems)
  | VObj props => Hobj props (all_props props)
  | VLocale m => Hlocale m (all_props m)
  | VLink linkType id => Hlink linkType id
  | VRef kind id => Href kind id
  end.
End ValueInduction.

(** Mapping over the values of a mapping, deleting the keys mapped to
    nothing. *)
Definition omap_props (g : Value -> option Value) : Props -> Props :=
  fix go ps :=
    match ps with
    | [] => []
    | (n, v) :: rest =>
        match g v with
        | Some v' => (n, v') :: go rest
        | None => go rest
        end
    end.

(** The value a field slot holds after resolution against the addressable
    keys [D]: a marker becomes the pointer to its target when that exists
    and follows the policy otherwise. *)
Fixpoint linked (D : gset Key) (remove : bool) (v : Value) : option Value :=
  match v with
  | VLink linkType id =>
      if decide ((linkType, id) ∈ D) then Some (VRef linkType id)
      else if remove then None else Some v
  | VArr elems => Some (VArr (omap (linked D remove) elems))
  | VLocale by_locale => Some (VLocale (omap_props (linked D remove) by_locale))
  | _ => Some v
  end.

(** An entity after its fields were walked. *)
Definition linked_entity (D : gset Key) (remove : bool) (item : Value) : Value :=
  match entity_fields item with
  | Some fs => with_fields (omap_props (linked D remove) fs) item
  | None => item
  end.

(** The markers a walk of a field value comes across. *)
Fixpoint markers (v : Value) : list Key :=
  match v with
  | VLink linkType id => [(linkType, id)]
  | VArr elems => mjoin (markers <$> elems)
  | VLocale by_locale => mjoin ((fun p => markers p.2) <$> by_locale)
  | _ => []
  end.

(** The markers in the fields of an entity. *)
Definition entity_markers (item : Value) : list Key :=
  match entity_fields item with
  | Some fs => mjoin ((fun p => markers p.2) <$> fs)
  | None => []
  end.

(** What a slot of the primary [items] holds after resolution. *)
Definition linked_item (D : gset Key) (remove : bool) (item : Value) : option Value :=
  match item_key item with
  | Some (kind, id) => linked D remove (VLink kind id)
  | None => Some (linked_entity D remove item)
  end.

(** The entities a primary item leads to at once. *)
Definition item_markers (item : Value) : list Key :=
  match item_key item with
  | Some k => [k]
  | None => entity_markers item
  end.

(** One field of an entity. *)
Definition entity_field (name : string) (item : Value) : option Value :=
  match entity_fields item with
  | Some fs => get_prop name fs
  | None => None
  end.

(** The entities the resolver gets to: those of the primary items, the
    targets of markers in the primary items, and the targets of markers in
    entities it gets to. *)
Inductive reachable (idx : Store) (items : list Value) : Key -> Prop :=
| reach_item item k :
    item ∈ items -> k ∈ item_markers item -> is_Some (idx !! k) -> reachable idx items k
| reach_link k item t :
    reachable idx items k -> idx !! k = Some item ->
    t ∈ entity_markers item -> is_Some (idx !! t) -> reachable idx items t.

(** The primary items of a payload. *)
Definition payload_items (data : Value) : list Value :=
  match prop "items" data with
  | VArr items => items
  | _ => []
  end.

(** The index the resolver builds for a payload. *)
Definition payload_index (data : Value) : Store :=
  build_index (payload_items data) (own_props (prop "includes" data)).

(** The identities in one bucket of [includes]. *)
Definition bucket_keys (bucket : string * Value) : list Key :=
  match bucket with
  | (kind, VArr entities) => omap (included_key kind) entities
  | _ => []
  end.

(** The identities that exist in [items] or [includes]. *)
Definition payload_keys (data : Value) : list Key :=
  (omap item_key (payload_items data)
   ++ mjoin (bucket_keys <$> own_props (prop "includes" data)))%list.

(** What an unresolved marker leaves in its slot. *)
Definition unresolved_slot (remove : bool) (marker : Value) : list Value :=
  if remove then [] else [marker].

(** The addressable entities of the index [idx] still to be expanded. *)
Definition pending (idx : Store) (active : gset Key) (st : RState) : nat :=
  size (dom idx ∖ (active ∪ resolved st)).

(** The invariant of a run that started from the index [idx]: the store
    holds every addressable entity, walked if cached as resolved and as it
    came otherwise; the markers of a resolved entity point at resolved
    entities or into the active path. *)
Record inv (remove : bool) (idx : Store) (active : gset Key) (st : RState) : Prop := {
  inv_store : forall k,
    store st !! k
    = (fun item => if decide (k ∈ resolved st)
                   then linked_entity (dom idx) remove item else item) <$> idx !! k;
  inv_closed : forall k item t,
    k ∈ resolved st -> idx !! k = Some item ->
    t ∈ entity_markers item -> is_Some (idx !! t) -> t ∈ resolved st ∪ active
}.

(** [w] returns on [v] with the slot value [g v], keeps the invariant and
    leaves the targets of the markers [mk v] resolved or active. *)
Definition sound_at (remove : bool) (idx : Store)
    (w : Walk) (g : Value -> option Value) (mk : Value -> list Key)
    (active : gset Key) (bound : nat) (v : Value) : Prop :=
  forall st, inv remove idx active st -> (pending idx active st <= bound)%nat ->
    exists st', w v st = Some (g v, st')
                /\ inv remove idx active st'
                /\ resolved st ⊆ resolved st'
                /\ forall t, t ∈ mk v -> is_Some (idx !! t) -> t ∈ resolved st' ∪ active.

(** ** The client: [createContentfulApi]  *)

(** What [getGlobalOptions()] returns, as far as the client reads it. *)
Record GlobalOptions := {
  resolveLinks : bool;
  removeUnresolved : bool;
  environment : string;
  space : string;
  spaceBaseUrl : option string;
  environmentBaseUrl : option string
}.

(** The shared [http] instance: its mutable [defaults.baseURL], and the
    requests handed to it so far (latest first). *)
Record Http := { baseURL : option string; sent : list (string * Value) }.

(** How a call ends: [return] or [throw]; a rejected promise is a throw. *)
Inductive Outcome (A : Type) :=
| Returned (a : A)
| Thrown (e : Value).
Arguments Returned {A} a.
Arguments Thrown {A} e.

(** Calls run against the shared [http] instance; [await] is sequencing. *)
Definition M (A : Type) : Type := Http -> Outcome A * Http.

Definition ret {A} (a : A) : M A := fun h => (Returned a, h).
Definition throw {A} (e : Value) : M A := fun h => (Thrown e, h).
Definition bind {A B} (m : M A) (k : A -> M B) : M B :=
  fun h => match m h with
           | (Returned a, h') => k a h'
           | (Thrown e, h') => (Thrown e, h')
           end.
Definition try_catch {A} (body : M A) (handler : Value -> M A) : M A :=
  fun h => match body h with
           | (Returned a, h') => (Returned a, h')
           | (Thrown e, h') => handler e h'
           end.

Notation "'let*' x ':=' m 'in' k" := (bind m (fun x => k))
  (at level 10, x name, m at level 100, k at level 200).

(** What the client is created from ([http], [getGlobalOptions]) and what
    it imports. *)
Record Collaborators := {
  getGlobalOptions : Value -> GlobalOptions;
  (** [http.get(url, config)] on the instance in its current state: a
      response ([inr]), or a thrown error ([inl]).  The transport reads the
      instance; it does not write to its defaults. *)
  http_get : Http -> string -> Value -> Value + Value;
  createRequestConfig : Value -> Value;
  normalizeSelect : Value -> Value;
  pagedSync : Value -> Value -> M Resolved
}.

(** The [context] of a request: ['space'] or ['environment']. *)
Inductive RequestContext := CtxSpace | CtxEnvironment.

Definition context_name (context : RequestContext) : string :=
  match context with CtxSpace => "space" | CtxEnvironment => "environment" end.

(** [new NotFoundError(id, environment, space)]. *)
Definition NotFoundError (id : Value) (environment space : string) : Value :=
  VObj [("message", VStr "The resource could not be found.");
        ("sys", VObj [("type", VStr "Error"); ("id", VStr "NotFound")]);
        ("details", VObj [("type", VStr "Entry"); ("id", id);
                          ("environment", VStr environment); ("space", VStr space)])].

(** The [TypeError] of a property read on [undefined] or [null]. *)
Definition TypeError (name : string) : Value :=
  VObj [("name", VStr "TypeError");
        ("message", VStr ("Cannot read properties of undefined (reading '" +:+ name +:+ "')"))].

Definition nullish (v : Value) : bool :=
  match v with VUndefined | VNull => true | _ => false end.

(** [v.name] as a statement that can throw. *)
Definition member {A} (name : string) (v : Value) (k : Value -> M A) : M A :=
  if nullish v then throw (TypeError name) else k (prop name v).

(** [!baseUrl]. *)
Definition url_missing (baseUrl : option string) : bool :=
  match baseUrl with
  | None => true
  | Some u => String.eqb u ""
  end.

(** [s.endsWith(suffix)]. *)
Definition endsWith (s suffix : string) : bool :=
  let n := String.length s in
  let m := String.length suffix in
  if decide (m <= n)%nat then String.eqb (String.substring (n - m) m s) suffix else false.

(** [if (!baseUrl.endsWith('/')) baseUrl += '/']. *)
Definition with_trailing_slash (baseUrl : string) : string :=
  if endsWith baseUrl "/" then baseUrl else baseUrl +:+ "/".

(** [x.length] where it is defined. *)
Definition js_length (v : Value) : option nat :=
  match v with
  | VArr l => Some (length l)
  | VStr s => Some (String.length s)
  | _ => None
  end.

(** [x[0]]. *)
Definition first_of (v : Value) : Value :=
  match v with
  | VArr (x :: _) => x
  | VStr (String c _) => VStr (String c EmptyString)
  | _ => VUndefined
  end.

Section Api.
Variable env : Collaborators.

Definition notFoundError (id : Value) : Value :=
  let id := or_default (VStr "unknown") id in
  NotFoundError id (environment (getGlobalOptions env VUndefined))
                   (space (getGlobalOptions env VUndefined)).

Definition errorHandler {A} (error : Value) : M A :=
  member "data" error (fun data =>
    if truthy data then throw data
    else
      let response := prop "response" error in
      if truthy response && truthy (prop "data" response)
      then throw (prop "data" response)
      else throw error).

(** [await http.get(url, config)]. *)
Definition request (url : string) (config : Value) : M Value :=
  fun h =>
    let h' := {| baseURL := baseURL h; sent := (url, config) :: sent h |} in
    match http_get env h url config with
    | inr response => (Returned response, h')
    | inl error => (Thrown error, h')
    end.

(** The base URL the options hold for a request context. *)
Definition configured_base_url (context : RequestContext) : option string :=
  match context with
  | CtxSpace => spaceBaseUrl (getGlobalOptions env VUndefined)
  | CtxEnvironment => environmentBaseUrl (getGlobalOptions env VUndefined)
  end.

(** The URL [get] requests: the base URL, ended by a slash, and the path. *)
Definition request_url (context : RequestContext) (path : string) : string :=
  with_trailing_slash (default "" (configured_base_url context)) +:+ path.

Definition get (context : RequestContext) (path : string) (config : Value) : M Value :=
  let baseUrl := configured_base_url context in
  if url_missing baseUrl
  then throw (mkError ("Please define baseUrl for " +:+ context_name context))
  else
    let baseUrl := with_trailing_slash (default "" baseUrl) in
    try_catch
      (let* response := request (baseUrl +:+ path) config in
       member "data" response ret)
      errorHandler.

Definition getSpace : M Value := get CtxSpace "" VUndefined.

Definition getContentType (id : string) : M Value :=
  get CtxEnvironment ("content_types/" +:+ id) VUndefined.

Definition getContentTypes : M Value :=
  get CtxEnvironment "content_types"
    (createRequestConfig env (VObj [("query", VObj [])])).

Definition getEntries (query : Value) : M Resolved :=
  let query := or_default (VObj []) query in
  let options := getGlobalOptions env (VObj []) in
  try_catch
    (let* entries :=
       get CtxEnvironment "entries"
         (createRequestConfig env (VObj [("query", normalizeSelect env query)])) in
     ret (resolveCircular entries (resolveLinks options) (removeUnresolved options)))
    errorHandler.

Definition getEntry (id query : Value) : M Resolved :=
  let query := or_default (VObj []) query in
  if negb (truthy id) then throw (notFoundError id)
  else
    try_catch
      (let* response := getEntries (VObj (spread [("sys.id", id)] (own_props query))) in
       member "items" (r_val response) (fun items =>
       member "length" items (fun _ =>
         match js_length items with
         | Some (S _) =>
             ret {| r_val := first_of items; r_store := r_store response |}
         | _ => throw (notFoundError id)
         end)))
      errorHandler.

Definition getAsset (id : string) (query : Value) : M Value :=
  let query := or_default (VObj []) query in
  get CtxEnvironment ("assets/" +:+ id)
    (createRequestConfig env (VObj [("query", normalizeSelect env query)])).

Definition getAssets (query : Value) : M Value :=
  let query := or_default (VObj []) query in
  get CtxEnvironment "assets"
    (createRequestConfig env (VObj [("query", normalizeSelect env query)])).

Definition getLocales (query : Value) : M Value :=
  let query := or_default (VObj []) query in
  get CtxEnvironment "locales"
    (createRequestConfig env (VObj [("query", normalizeSelect env query)])).

(** Switches BaseURL to use /environments path. *)
Definition switchToEnvironment (h : Http) : Http :=
  {| baseURL := environmentBaseUrl (getGlobalOptions env VUndefined); sent := sent h |}.

Definition sync (query options : Value) : M Resolved :=
  let query := or_default (VObj []) query in
  let options := or_default (VObj [("paginate", VBool true)]) options in
  let g := getGlobalOptions env query in
  fun h =>
    pagedSync env query
      (VObj (spread [("resolveLinks", VBool (resolveLinks g));
                     ("removeUnresolved", VBool (removeUnresolved g))]
                    (own_props options)))
      (switchToEnvironment h).

Definition parseEntries (data : Value) : Resolved :=
  let options := getGlobalOptions env (VObj []) in
  resolveCircular data (resolveLinks options) (removeUnresolved options).

(** The methods of the returned client object. *)
Inductive Call :=
| GetSpace
| GetContentType (id : string)
| GetContentTypes
| GetEntry (id query : Value)
| GetEntries (query : Value)
| GetAsset (id : string) (query : Value)
| GetAssets (query : Value)
| GetLocales (query : Value)
| ParseEntries (data : Value)
| Sync (query options : Value).

Definition plain (m : M Value) : M Resolved := let* v := m in ret (unlinked v).

Definition invoke (c : Call) : M Resolved :=
  match c with
  | GetSpace => plain getSpace
  | GetContentType id => plain (getContentType id)
  | GetContentTypes => plain getContentTypes
  | GetEntry id query => getEntry id query
  | GetEntries query => getEntries query
  | GetAsset id query => plain (getAsset id query)
  | GetAssets query => plain (getAssets query)
  | GetLocales query => plain (getLocales query)
  | ParseEntries data => ret (parseEntries data)
  | Sync query options => sync query options
  end.
End Api.

(** Whether a call is [sync]. *)
Definition is_sync (c : Call) : bool :=
  match c with Sync _ _ => true | _ => false end.

(** The same collaborators with other link options. *)
Definition with_link_options (resolve remove : bool) (env : Collaborators) : Collaborators :=
  {| getGlobalOptions := fun q =>
       let g := getGlobalOptions env q in
       {| resolveLinks := resolve; removeUnresolved := remove;
          environment := environment g; space := space g;
          spaceBaseUrl := spaceBaseUrl g; environmentBaseUrl := environmentBaseUrl g |};
     http_get := http_get env;
     createRequestConfig := createRequestConfig env;
     normalizeSelect := normalizeSelect env;
     pagedSync := pagedSync env |}.

(** What [errorHandler] throws for an error object: the first truthy one of
    [error.data] and [error.response.data], else the error. *)
Definition unwrapped (error : Value) : Value :=
  if truthy (prop "data" error) then prop "data" error
  else if truthy (prop "response" error) && truthy (prop "data" (prop "response" error))
       then prop "data" (prop "response" error)
       else error.

(** Whether an object carries a property at all, whatever its value. *)
Definition has_prop (name : string) (v : Value) : bool :=
  bool_decide (is_Some (get_prop name (own_props v))).

(** The unwrapping by presence of the properties rather than by their
    truthiness. *)
Definition unwrapped_if_present (error : Value) : Value :=
  if has_prop "data" error then prop "data" error
  else if has_prop "data" (prop "response" error) then prop "data" (prop "response" error)
       else error.

(** A computation that leaves [http.defaults.baseURL] alone. *)
Definition keeps_base_url {A} (m : M A) : Prop :=
  forall h, baseURL (snd (m h)) = baseURL h.

(** *** A sample client *)

Definition sample_options : GlobalOptions :=
  {| resolveLinks := true; removeUnresolved := false;
     environment := "master"; space := "cfexampleapi";
     spaceBaseUrl := Some "https://cdn.contentful.com/spaces/cfexampleapi";
     environmentBaseUrl :=
       Some "https://cdn.contentful.com/spaces/cfexampleapi/environments/master/" |}.

Definition sys (type id : string) : string * Value :=
  ("sys", VObj [("type", VStr type); ("id", VStr id)]).

(** The payload of the [parseEntries] documentation, extended: an entry
    with a resolvable, an unresolvable, an array and a localized field, and
    two entries that refer to each other. *)
Definition zoo : Value :=
  VObj [sys "Entry" "zoo";
        ("fields", VObj [("animal", VLink "Animal" "oink");
                         ("anotheranimal", VLink "Animal" "middle-parrot");
                         ("pets", VArr [VLink "Animal" "oink"; VLink "Animal" "ghost"]);
                         ("mascot", VLocale [("en-US", VLink "Animal" "oink");
                                             ("de-DE", VLink "Animal" "ghost")]);
                         ("favourite", VLink "Animal" "oink")])].

Definition cat : Value :=
  VObj [sys "Entry" "cat";
        ("fields", VObj [("name", VStr "Nyan"); ("friend", VLink "Entry" "dog")])].

Definition dog : Value :=
  VObj [sys "Entry" "dog";
        ("fields", VObj [("name", VStr "Doge"); ("friend", VLink "Entry" "cat")])].

Definition oink : Value :=
  VObj [sys "Animal" "oink";
        ("fields", VObj [("name", VStr "Pig"); ("friend", VLink "Animal" "groundhog")])].

Definition sample_items : list Value := [zoo; cat; dog].

Definition sample_props : Props :=
  [("total", VNum 3);
   ("items", VArr sample_items);
   ("includes", VObj [("Animal", VArr [oink])])].

Definition sample_payload : Value := VObj sample_props.

Definition empty_collection : Value := VObj [("total", VNum 0); ("items", VArr [])].

(** A transport that finds the entries collection, an empty collection
    when the query asks for an id, and nothing else. *)
Definition sample_http_get (h : Http) (url : string) (config : Value) : Value + Value :=
  if endsWith url "/entries" then
    match prop "sys.id" (prop "query" config) with
    | VUndefined => inr (VObj [("status", VNum 200); ("data", sample_payload)])
    | _ => inr (VObj [("status", VNum 200); ("data", empty_collection)])
    end
  else if endsWith url "/assets" then
    inr (VObj [("status", VNum 200);
               ("data", VObj [("items", VArr [
                   VObj [sys "Asset" "logo";
                         ("fields", VObj [("owner", VLink "Entry" "zoo")])]])])])
  else inl (VObj [("response", VObj [("status", VNum 500); ("data", VStr "")])]).

Definition sample_pagedSync (query options : Value) : M Resolved :=
  ret (unlinked (VObj [("entries", VArr []); ("nextSyncToken", VStr "t0")])).

Definition sample_env : Collaborators :=
  {| getGlobalOptions := fun _ => sample_options;
     http_get := sample_http_get;
     createRequestConfig := fun v => v;
     normalizeSelect := fun v => v;
     pagedSync := sample_pagedSync |}.

(** A transport whose answer shows the [defaults.baseURL] of the instance
    it is called on. *)
Definition echo_env : Collaborators :=
  {| getGlobalOptions := fun _ => sample_options;
     http_get := fun h url config =>
       inr (VObj [("data", VObj [("baseURL", from_option VStr VUndefined (baseURL h))])]);
     createRequestConfig := fun v => v;
     normalizeSelect := fun v => v;
     pagedSync := sample_pagedSync |}.

Definition fresh_http : Http := {| baseURL := None; sent := [] |}.

Definition no_url_options : GlobalOptions :=
  {| resolveLinks := true; removeUnresolved := false;
     environment := "master"; space := "cfexampleapi";
     spaceBaseUrl := None; environmentBaseUrl := Some "" |}.

Definition no_url_env : Collaborators :=
  {| getGlobalOptions := fun _ => no_url_options;
     http_get := sample_http_get;
     createRequestConfig := fun v => v;
     normalizeSelect := fun v => v;
     pagedSync := sample_pagedSync |}.

(** A failed request whose response has an empty body. *)
Definition empty_body_error : Value :=
  VObj [("message", VStr "Request failed with status code 500");
        ("response", VObj [("status", VNum 500); ("data", VStr "")])].

Definition raw_env : Collaborators := with_link_options false true sample_env.

(** *** Further notions about the client *)

(** A computation that leaves the [http] instance as it is: nothing sent,
    no default changed. *)
Definition quiet {A} (m : M A) : Prop := forall h, snd (m h) = h.

(** The instance after one more request was handed to the transport. *)
Definition logged (url : string) (config : Value) (h : Http) : Http :=
  {| baseURL := baseURL h; sent := (url, config) :: sent h |}.

(** The query object [getEntry] builds: [{ 'sys.id': id, ...query }]. *)
Definition entry_query (id query : Value) : Value :=
  VObj (spread [("sys.id", id)] (own_props (or_default (VObj []) query))).

(** The options object [sync] hands to [pagedSync]:
    [{ resolveLinks, removeUnresolved, ...options }], with
    [options = { paginate: true }] by default. *)
Definition sync_options (g : GlobalOptions) (options : Value) : Value :=
  VObj (spread [("resolveLinks", VBool (resolveLinks g));
                ("removeUnresolved", VBool (removeUnresolved g))]
               (own_props (or_default (VObj [("paginate", VBool true)]) options))).

(** The binding of [name] that a spread of [ps] leaves: the last one. *)
Definition last_prop (name : string) (ps : Props) : option Value :=
  get_prop name (reverse ps).

(** The calls that go through [get] with the ['environment'] context. *)
Definition needs_environment (c : Call) : bool :=
  match c with
  | GetSpace | ParseEntries _ | Sync _ _ => false
  | GetEntry id _ => truthy id
  | _ => true
  end.

(** The request a call hands to the transport, when it gets that far. *)
Definition call_request (env : Collaborators) (c : Call) : option (string * Value) :=
  let with_query query :=
    createRequestConfig env (VObj [("query", normalizeSelect env (or_default (VObj []) query))]) in
  match c with
  | GetSpace => Some (request_url env CtxSpace "", VUndefined)
  | GetContentType id =>
      Some (request_url env CtxEnvironment ("content_types/" +:+ id), VUndefined)
  | GetContentTypes =>
      Some (request_url env CtxEnvironment "content_types",
            createRequestConfig env (VObj [("query", VObj [])]))
  | GetEntry id query =>
      if truthy id
      then Some (request_url env CtxEnvironment "entries", with_query (entry_query id query))
      else None
  | GetEntries query => Some (request_url env CtxEnvironment "entries", with_query query)
  | GetAsset id query =>
      Some (request_url env CtxEnvironment ("assets/" +:+ id), with_query query)
  | GetAssets query => Some (request_url env CtxEnvironment "assets", with_query query)
  | GetLocales query => Some (request_url env CtxEnvironment "locales", with_query query)
  | ParseEntries _ | Sync _ _ => None
  end.

(** The [http] instance after a sequence of calls, one after the other. *)
Definition run_calls (env : Collaborators) (cs : list Call) (h : Http) : Http :=
  foldl (fun h c => snd (invoke env c h)) h cs.

(** The context a call requests in. *)
Definition call_context (c : Call) : RequestContext :=
  match c with GetSpace => CtxSpace | _ => CtxEnvironment end.

(** A transport error whose response body has a [data] property of its
    own. *)
Definition nested_error : Value :=
  VObj [("message", VStr "Request failed with status code 404");
        ("response",
         VObj [("status", VNum 404);
               ("data", VObj [("message", VStr "not here");
                              ("data", VObj [("requestId", VStr "r1")])])])].

(** A client whose transport fails every request with [nested_error]. *)
Definition failing_env : Collaborators :=
  {| getGlobalOptions := fun _ => sample_options;
     http_get := fun _ _ _ => inl nested_error;
     createRequestConfig := fun v => v;
     normalizeSelect := fun v => v;
     pagedSync := sample_pagedSync |}.

(** A client whose transport answers every request with [undefined]. *)
Definition silent_env : Collaborators :=
  {| getGlobalOptions := fun _ => sample_options;
     http_get := fun _ _ _ => inr VUndefined;
     createRequestConfig := fun v => v;
     normalizeSelect := fun v => v;
     pagedSync := sample_pagedSync |}.


(** ** The client: error paths *)

Section ApiFacts.
Variable env : Collaborators.

Lemma member_object {A} name v (k : Value -> M A) :
  nullish v = false -> member name v k = k (prop name v).
Proof. unfold member. by intros ->. Qed.

Lemma errorHandler_throws {A} error h :
  exists e, @errorHandler A error h = (Thrown e, h).
Proof.
  unfold errorHandler, member, throw.
  destruct (nullish error); [by eexists|].
  destruct (truthy (prop "data" error)); [by eexists|].
  destruct (truthy (prop "response" error) && truthy (prop "data" (prop "response" error)));
    by eexists.
Qed.

Lemma errorHandler_unwrapped {A} error h :
  nullish error = false -> @errorHandler A error h = (Thrown (unwrapped error), h).
Proof.
  intros Hobj. unfold errorHandler, unwrapped. rewrite member_object by done.
  destruct (truthy (prop "data" error)); [done|].
  by destruct (truthy (prop "response" error) && truthy (prop "data" (prop "response" error))).
Qed.

(** A [NotFoundError] has neither [data] nor [response]: the handler
    rethrows it as it is. *)
Lemma errorHandler_notFound {A} id h :
  @errorHandler A (notFoundError env id) h = (Thrown (notFoundError env id), h).
Proof. reflexivity. Qed.

(** C7: when the base URL configured for the context is missing, [get]
    throws the configuration error and leaves the [http] instance as it
    was: nothing was sent, the transport was not called. *)
Theorem get_without_base_url context path config h :
  url_missing (configured_base_url env context) = true ->
  get env context path config h
    = (Thrown (mkError ("Please define baseUrl for " +:+ context_name context)), h)
  /\ sent (snd (get env context path config h)) = sent h.
Proof.
  intros Hmiss. unfold get. rewrite Hmiss. split; reflexivity.
Qed.

(** C8, as the code has it: the handler always throws, sends nothing, and
    for an error object throws [error.data] when that is truthy,
    otherwise [error.response.data] when [error.response] and it are
    truthy, otherwise the error itself; and this is what [get] throws when
    the transport raises the error, after the one request it sent. *)
Theorem errorHandler_rethrows (error : Value) h :
  (exists e, @errorHandler Value error h = (Thrown e, h))
  /\ (nullish error = false ->
      @errorHandler Value error h = (Thrown (unwrapped error), h)
      /\ (truthy (prop "data" error) = true -> unwrapped error = prop "data" error)
      /\ (truthy (prop "data" error) = false ->
          truthy (prop "response" error) && truthy (prop "data" (prop "response" error)) = true ->
          unwrapped error = prop "data" (prop "response" error))
      /\ (truthy (prop "data" error) = false ->
          truthy (prop "response" error) && truthy (prop "data" (prop "response" error)) = false ->
          unwrapped error = error)
      /\ (forall context path config,
            url_missing (configured_base_url env context) = false ->
            http_get env h (request_url env context path) config = inl error ->
            get env context path config h
            = (Thrown (unwrapped error),
               {| baseURL := baseURL h;
                  sent := (request_url env context path, config) :: sent h |}))).
Proof.
  split; [apply errorHandler_throws|].
  intros Hobj. split; [by apply errorHandler_unwrapped|].
  unfold unwrapped. repeat split.
  - by intros ->.
  - by intros -> ->.
  - by intros -> ->.
  - intros context path config Hurl Hget. unfold get. rewrite Hurl.
    unfold try_catch, bind, request. fold (request_url env context path).
    rewrite Hget. by apply errorHandler_unwrapped.
Qed.

(** C9, as the code has it: for a falsy id [getEntry] throws the
    [NotFoundError] at once and sends nothing; [details.id] is the id,
    except that an [undefined] id is reported as ['unknown']. *)
Theorem getEntry_falsy_id (id query : Value) h :
  truthy id = false ->
  getEntry env id query h
    = (Thrown (NotFoundError (or_default (VStr "unknown") id)
                 (environment (getGlobalOptions env VUndefined))
                 (space (getGlobalOptions env VUndefined))), h)
  /\ (id <> VUndefined -> or_default (VStr "unknown") id = id).
Proof.
  intros Hfalsy. split.
  - unfold getEntry. by rewrite Hfalsy.
  - by destruct id.
Qed.

(** C2: when the entries query that [getEntry] issues for a (truthy) id
    comes back with zero items, [getEntry] throws the [NotFoundError]
    carrying that id and the configured environment and space. *)
Theorem getEntry_no_match (id query : Value) h (response : Resolved) h' :
  truthy id = true ->
  getEntries env (VObj (spread [("sys.id", id)] (own_props (or_default (VObj []) query)))) h
    = (Returned response, h') ->
  prop "items" (r_val response) = VArr [] ->
  getEntry env id query h
    = (Thrown (NotFoundError id (environment (getGlobalOptions env VUndefined))
                                (space (getGlobalOptions env VUndefined))), h')
  /\ prop "sys" (NotFoundError id (environment (getGlobalOptions env VUndefined))
                                  (space (getGlobalOptions env VUndefined)))
     = VObj [("type", VStr "Error"); ("id", VStr "NotFound")]
  /\ prop "details" (NotFoundError id (environment (getGlobalOptions env VUndefined))
                                      (space (getGlobalOptions env VUndefined)))
     = VObj [("type", VStr "Entry"); ("id", id);
             ("environment", VStr (environment (getGlobalOptions env VUndefined)));
             ("space", VStr (space (getGlobalOptions env VUndefined)))].
Proof.
  intros Hid Hquery Hitems. split; [|split; reflexivity].
  unfold getEntry. rewrite Hid. cbn [negb].
  unfold try_catch, bind. rewrite Hquery.
  assert (Hobj : nullish (r_val response) = false).
  { destruct (r_val response); try done; by cbn in Hitems. }
  rewrite member_object by done. rewrite Hitems.
  rewrite member_object by done.
  change (js_length (VArr [])) with (Some 0%nat). cbv beta iota. unfold throw at 1.
  rewrite errorHandler_notFound. unfold notFoundError.
  by replace (or_default (VStr "unknown") id) with id by (by destruct id).
Qed.

(** C10: [getAsset] and [getAssets] do not depend on the link options,
    and hand back [response.data] of the transport's response as it is. *)
Theorem assets_not_resolved (id : string) (query : Value) h :
  (forall resolve remove,
      getAsset (with_link_options resolve remove env) id query h = getAsset env id query h
      /\ getAssets (with_link_options resolve remove env) query h = getAssets env query h)
  /\ (forall path response,
        url_missing (configured_base_url env CtxEnvironment) = false ->
        http_get env h (request_url env CtxEnvironment path)
          (createRequestConfig env
             (VObj [("query", normalizeSelect env (or_default (VObj []) query))]))
          = inr response ->
        nullish response = false ->
        (path = "assets/" +:+ id ->
         fst (getAsset env id query h) = Returned (prop "data" response))
        /\ (path = "assets" ->
            fst (getAssets env query h) = Returned (prop "data" response))).
Proof.
  split; [done|].
  intros path response Hurl Hget Hobj.
  unfold request_url in Hget.
  split; intros ->; unfold getAsset, getAssets, get; rewrite Hurl;
    unfold try_catch, bind, request; rewrite Hget;
    by rewrite member_object.
Qed.

(** C1: with [resolveLinks] off, [parseEntries] returns its payload as it
    is, and [getEntries] returns the body that [get] delivered as it is:
    no store, no rewritten field. *)
Theorem resolveLinks_off_payload_unchanged (data : Value) :
  resolveLinks (getGlobalOptions env (VObj [])) = false ->
  parseEntries env data = unlinked data
  /\ r_val (parseEntries env data) = data
  /\ (forall query h body h',
        get env CtxEnvironment "entries"
          (createRequestConfig env
             (VObj [("query", normalizeSelect env (or_default (VObj []) query))])) h
          = (Returned body, h') ->
        getEntries env query h = (Returned (unlinked body), h')).
Proof.
  intros Hoff. unfold parseEntries, getEntries, resolveCircular. rewrite Hoff.
  repeat split. intros query h body h' Hget.
  unfold try_catch, bind. by rewrite Hget.
Qed.

(** *** The shared [http] instance *)

Lemma keeps_ret {A} (a : A) : keeps_base_url (ret a).
Proof. by intros h. Qed.

Lemma keeps_throw {A} e : keeps_base_url (@throw A e).
Proof. by intros h. Qed.

Lemma keeps_bind {A B} (m : M A) (k : A -> M B) :
  keeps_base_url m -> (forall a, keeps_base_url (k a)) -> keeps_base_url (bind m k).
Proof.
  intros Hm Hk h. unfold bind. specialize (Hm h).
  destruct (m h) as [[a|e] h1]; cbn in *; [|done].
  by rewrite Hk.
Qed.

Lemma keeps_try_catch {A} (m : M A) handler :
  keeps_base_url m -> (forall e, keeps_base_url (handler e)) ->
  keeps_base_url (try_catch m handler).
Proof.
  intros Hm Hh h. unfold try_catch. specialize (Hm h).
  destruct (m h) as [[a|e] h1]; cbn in *; [done|].
  by rewrite Hh.
Qed.

Lemma keeps_member {A} name v (k : Value -> M A) :
  (forall x, keeps_base_url (k x)) -> keeps_base_url (member name v k).
Proof. intros Hk. unfold member. destruct (nullish v); [apply keeps_throw | apply Hk]. Qed.

Lemma keeps_errorHandler {A} error : keeps_base_url (@errorHandler A error).
Proof. intros h. by destruct (@errorHandler_throws A error h) as [e ->]. Qed.

Lemma keeps_request url config : keeps_base_url (request env url config).
Proof. intros h. unfold request. by destruct (http_get env h url config). Qed.

Lemma keeps_get context path config : keeps_base_url (get env context path config).
Proof.
  unfold get. destruct (url_missing _); [apply keeps_throw|].
  apply keeps_try_catch; [|apply keeps_errorHandler].
  apply keeps_bind; [apply keeps_request|].
  intros response. apply keeps_member. apply keeps_ret.
Qed.

Lemma keeps_getEntries query : keeps_base_url (getEntries env query).
Proof.
  unfold getEntries. apply keeps_try_catch; [|apply keeps_errorHandler].
  apply keeps_bind; [apply keeps_get|]. intros entries. apply keeps_ret.
Qed.

Lemma keeps_getEntry id query : keeps_base_url (getEntry env id query).
Proof.
  unfold getEntry. destruct (negb (truthy id)); [apply keeps_throw|].
  apply keeps_try_catch; [|apply keeps_errorHandler].
  apply keeps_bind; [apply keeps_getEntries|]. intros response.
  apply keeps_member; intros items. apply keeps_member; intros _.
  destruct (js_length items) as [[|n]|]; first [apply keeps_throw | apply keeps_ret].
Qed.

Lemma keeps_plain m : keeps_base_url m -> keeps_base_url (plain m).
Proof. intros Hm. apply keeps_bind; [done|]. intros v. apply keeps_ret. Qed.

(** C6, as the code has it: every method but [sync] leaves
    [http.defaults.baseURL] as it found it; [sync] first overwrites it
    with the environment base URL and pages on the instance so changed. *)
Theorem only_sync_switches_base_url (c : Call) h :
  (is_sync c = false -> baseURL (snd (invoke env c h)) = baseURL h)
  /\ (forall query options,
        exists options',
          sync env query options h
            = pagedSync env (or_default (VObj []) query) options' (switchToEnvironment env h)
          /\ baseURL (switchToEnvironment env h)
             = environmentBaseUrl (getGlobalOptions env VUndefined)).
Proof.
  split.
  - intros Hc. revert h.
    destruct c; try discriminate Hc; cbn [invoke];
      first [ apply keeps_plain, keeps_get
            | apply keeps_getEntry
            | apply keeps_getEntries
            | apply keeps_ret ].
  - intros query options. eexists. split; reflexivity.
Qed.
End ApiFacts.

(** *** The theorems at the sample client *)

Lemma get_without_base_url_witness :
  url_missing (configured_base_url no_url_env CtxSpace) = true
  /\ get no_url_env CtxSpace "" VUndefined fresh_http
     = (Thrown (mkError "Please define baseUrl for space"), fresh_http).
Proof.
  split; [reflexivity|].
  apply (get_without_base_url no_url_env CtxSpace "" VUndefined fresh_http).
  reflexivity.
Defined.

Lemma errorHandler_rethrows_witness :
  nullish empty_body_error = false
  /\ @errorHandler Value empty_body_error fresh_http
     = (Thrown (unwrapped empty_body_error), fresh_http).
Proof.
  split; [reflexivity|].
  apply (errorHandler_rethrows sample_env empty_body_error fresh_http).
  reflexivity.
Defined.

(** C8 as stated fails on an error whose response body is present but
    empty: the body is not thrown, the error object is. *)
Lemma errorHandler_present_falsy_body :
  has_prop "data" empty_body_error = false
  /\ has_prop "data" (prop "response" empty_body_error) = true
  /\ unwrapped_if_present empty_body_error = VStr ""
  /\ @errorHandler Value empty_body_error fresh_http = (Thrown empty_body_error, fresh_http)
  /\ @errorHandler Value empty_body_error fresh_http
     <> (Thrown (unwrapped_if_present empty_body_error), fresh_http).
Proof.
  repeat split; try reflexivity.
  intros H. vm_compute in H. discriminate H.
Qed.

Lemma getEntry_falsy_id_witness :
  truthy (VStr "") = false
  /\ getEntry sample_env (VStr "") VUndefined fresh_http
     = (Thrown (NotFoundError (VStr "") "master" "cfexampleapi"), fresh_http).
Proof.
  split; [reflexivity|].
  apply (getEntry_falsy_id sample_env (VStr "") VUndefined fresh_http).
  reflexivity.
Defined.

(** C9 as stated fails on the falsy id [undefined]: [details.id] is then
    ['unknown'], not that id. *)
Lemma getEntry_undefined_id_unknown :
  truthy VUndefined = false
  /\ getEntry sample_env VUndefined VUndefined fresh_http
     = (Thrown (NotFoundError (VStr "unknown") "master" "cfexampleapi"), fresh_http)
  /\ getEntry sample_env VUndefined VUndefined fresh_http
     <> (Thrown (NotFoundError VUndefined "master" "cfexampleapi"), fresh_http).
Proof.
  repeat split; try reflexivity.
  intros H. vm_compute in H. discriminate H.
Qed.

Lemma getEntry_no_match_witness :
  truthy (VStr "nope") = true
  /\ fst (getEntry sample_env (VStr "nope") VUndefined fresh_http)
     = Thrown (NotFoundError (VStr "nope") "master" "cfexampleapi").
Proof.
  split; [reflexivity|].
  pose proof (getEntry_no_match sample_env (VStr "nope") VUndefined fresh_http
                (unlinked empty_collection)
                (snd (getEntry sample_env (VStr "nope") VUndefined fresh_http))
                eq_refl eq_refl eq_refl) as [H _].
  rewrite H. reflexivity.
Defined.

Lemma assets_not_resolved_witness :
  url_missing (configured_base_url sample_env CtxEnvironment) = false
  /\ fst (getAssets sample_env VUndefined fresh_http)
     = Returned (VObj [("items", VArr [
                   VObj [sys "Asset" "logo";
                         ("fields", VObj [("owner", VLink "Entry" "zoo")])]])]).
Proof.
  split; [reflexivity|].
  pose proof (assets_not_resolved sample_env "logo" VUndefined fresh_http) as [_ H].
  destruct (H "assets"
              (VObj [("status", VNum 200);
                     ("data", VObj [("items", VArr [
                        VObj [sys "Asset" "logo";
                              ("fields", VObj [("owner", VLink "Entry" "zoo")])]])])])
              eq_refl eq_refl eq_refl) as [_ Hassets].
  exact (Hassets eq_refl).
Defined.

Lemma resolveLinks_off_payload_unchanged_witness :
  resolveLinks (getGlobalOptions raw_env (VObj [])) = false
  /\ parseEntries raw_env sample_payload = unlinked sample_payload
  /\ fst (getEntries raw_env VUndefined fresh_http) = Returned (unlinked sample_payload).
Proof.
  split; [reflexivity|].
  destruct (resolveLinks_off_payload_unchanged raw_env sample_payload eq_refl)
    as (Hparse & _ & Hget).
  split; [exact Hparse|].
  rewrite (Hget VUndefined fresh_http sample_payload
             (snd (getEntries raw_env VUndefined fresh_http)) eq_refl).
  reflexivity.
Defined.

Lemma only_sync_switches_base_url_witness :
  is_sync (GetEntries VUndefined) = false
  /\ baseURL (snd (invoke sample_env (GetEntries VUndefined) fresh_http)) = baseURL fresh_http.
Proof.
  split; [reflexivity|].
  apply (only_sync_switches_base_url sample_env (GetEntries VUndefined) fresh_http).
  reflexivity.
Defined.

(** C6 as stated fails on [sync]: it changes [http.defaults.baseURL], and
    the same [getSpace] call answers differently on the instance before and
    after, with a transport that answers from the instance's defaults. *)
Lemma sync_changes_shared_http :
  baseURL (snd (invoke echo_env (Sync VUndefined VUndefined) fresh_http)) <> baseURL fresh_http
  /\ fst (invoke echo_env GetSpace (snd (invoke echo_env (Sync VUndefined VUndefined) fresh_http)))
     <> fst (invoke echo_env GetSpace fresh_http).
Proof.
  split; intros H; vm_compute in H; discriminate H.
Qed.

(** ** The link resolver: what it computes *)

Lemma walk_list_cons (w : Walk) v rest st :
  walk_list w (v :: rest) st
  = match w v st with
    | None => None
    | Some (ov, st1) =>
        match walk_list w rest st1 with
        | None => None
        | Some (rest', st2) =>
            Some (match ov with Some v' => v' :: rest' | None => rest' end, st2)
        end
    end.
Proof. reflexivity. Qed.

Lemma walk_props_cons (w : Walk) n v rest st :
  walk_props w ((n, v) :: rest) st
  = match w v st with
    | None => None
    | Some (ov, st1) =>
        match walk_props w rest st1 with
        | None => None
        | Some (rest', st2) =>
            Some (match ov with Some v' => (n, v') :: rest' | None => rest' end, st2)
        end
    end.
Proof. reflexivity. Qed.

(** *** Termination and the invariant of the walk *)

Section ResolverFacts.
Variable remove : bool.
(** The index the resolution started from. *)
Variable idx : Store.

Lemma pending_mono active st st' :
  resolved st ⊆ resolved st' -> (pending idx active st' <= pending idx active st)%nat.
Proof. intros Hsub. apply subseteq_size. set_solver. Qed.

Lemma pending_push active k st :
  is_Some (idx !! k) -> k ∉ active -> k ∉ resolved st ->
  (pending idx ({[k]} ∪ active) st < pending idx active st)%nat.
Proof.
  intros Hk Hact Hres. apply subset_size.
  apply elem_of_dom in Hk. set_solver.
Qed.

Lemma inv_weaken active active' st :
  active ⊆ active' -> inv remove idx active st -> inv remove idx active' st.
Proof.
  intros Hsub [Hst Hcl]. split; [done|].
  intros k item t Hk Hitem Ht Hin. specialize (Hcl k item t Hk Hitem Ht Hin). set_solver.
Qed.

Section Sound.
Variable w : Walk.
Variable g : Value -> option Value.
Variable mk : Value -> list Key.
Variable active : gset Key.
Variable bound : nat.

Lemma walk_list_sound l :
  Forall (sound_at remove idx w g mk active bound) l ->
  forall st, inv remove idx active st -> (pending idx active st <= bound)%nat ->
    exists st', walk_list w l st = Some (omap g l, st')
                /\ inv remove idx active st'
                /\ resolved st ⊆ resolved st'
                /\ forall t, t ∈ mjoin (mk <$> l) -> is_Some (idx !! t) ->
                             t ∈ resolved st' ∪ active.
Proof.
  induction 1 as [|v l Hv _ IH]; intros st Hinv Hb.
  - exists st. split; [done|split; [done|split; [done|]]].
    intros t Ht. by apply elem_of_nil in Ht.
  - destruct (Hv st Hinv Hb) as (st1 & Hw & Hinv1 & Hsub1 & Hmk1).
    destruct (IH st1 Hinv1) as (st2 & Hgo & Hinv2 & Hsub2 & Hmk2).
    { pose proof (pending_mono active _ _ Hsub1). lia. }
    exists st2. split; [|split; [done|split; [set_solver|]]].
    + rewrite walk_list_cons, Hw, Hgo. cbn. by destruct (g v).
    + intros t Ht Hin. cbn in Ht. apply elem_of_app in Ht as [Ht|Ht].
      * specialize (Hmk1 t Ht Hin). set_solver.
      * by apply Hmk2.
Qed.

Lemma walk_props_sound ps :
  Forall (fun p => sound_at remove idx w g mk active bound p.2) ps ->
  forall st, inv remove idx active st -> (pending idx active st <= bound)%nat ->
    exists st', walk_props w ps st = Some (omap_props g ps, st')
                /\ inv remove idx active st'
                /\ resolved st ⊆ resolved st'
                /\ forall t, t ∈ mjoin ((fun p => mk p.2) <$> ps) -> is_Some (idx !! t) ->
                             t ∈ resolved st' ∪ active.
Proof.
  induction 1 as [|[n v] ps Hv _ IH]; intros st Hinv Hb.
  - exists st. split; [done|split; [done|split; [done|]]].
    intros t Ht. by apply elem_of_nil in Ht.
  - destruct (Hv st Hinv Hb) as (st1 & Hw & Hinv1 & Hsub1 & Hmk1).
    destruct (IH st1 Hinv1) as (st2 & Hgo & Hinv2 & Hsub2 & Hmk2).
    { pose proof (pending_mono active _ _ Hsub1). lia. }
    exists st2. split; [|split; [done|split; [set_solver|]]].
    + cbn in Hw. rewrite walk_props_cons, Hw, Hgo. cbn. by destruct (g v).
    + intros t Ht Hin. cbn in Ht. apply elem_of_app in Ht as [Ht|Ht].
      * specialize (Hmk1 t Ht Hin). set_solver.
      * by apply Hmk2.
Qed.
End Sound.

Section WalkSound.
Variable descend : gset Key -> Key -> RState -> option RState.
Variable bound : nat.
Hypothesis descend_sound : forall active k st,
  inv remove idx active st -> is_Some (idx !! k) -> k ∉ active -> k ∉ resolved st ->
  (pending idx active st <= bound)%nat ->
  exists st', descend active k st = Some st'
              /\ inv remove idx active st' /\ resolved st ⊆ resolved st' /\ k ∈ resolved st'.

Lemma walk_sound active v :
  sound_at remove idx (walk remove descend active) (linked (dom idx) remove) markers active bound v.
Proof.
  induction v as [| |b|n|s|elems IH|props _|m IH|linkType id|kind id] using Value_ind;
    intros st Hinv Hb;
    try (exists st; split; [done|split; [done|split; [done|]]];
         intros t Ht; by apply elem_of_nil in Ht).
  - destruct (walk_list_sound _ _ markers active bound elems IH st Hinv Hb)
      as (st' & Hw & Hinv' & Hsub & Hmk).
    exists st'. split; [cbn; by rewrite Hw|]. split; [done|]. split; done.
  - destruct (walk_props_sound _ _ markers active bound m IH st Hinv Hb)
      as (st' & Hw & Hinv' & Hsub & Hmk).
    exists st'. split; [cbn; by rewrite Hw|]. split; [done|]. split; done.
  - cbn. rewrite (inv_store _ _ _ _ Hinv).
    destruct (idx !! (linkType, id)) as [item|] eqn:Hidx; cbn.
    + assert (Hdom : (linkType, id) ∈ dom idx) by (apply elem_of_dom; eauto).
      rewrite (decide_True _ _ Hdom).
      destruct (decide ((linkType, id) ∈ active)) as [Hact|Hact].
      { exists st. split; [done|split; [done|split; [done|]]].
        intros t Ht _. apply list_elem_of_singleton in Ht as ->. set_solver. }
      destruct (decide ((linkType, id) ∈ resolved st)) as [Hres|Hres].
      { exists st. split; [done|split; [done|split; [done|]]].
        intros t Ht _. apply list_elem_of_singleton in Ht as ->. set_solver. }
      destruct (descend_sound active (linkType, id) st Hinv) as (st' & Hd & Hinv' & Hsub & Hk);
        [by eauto|done|done|done|].
      exists st'. rewrite Hd. split; [done|split; [done|split; [done|]]].
      intros t Ht _. apply list_elem_of_singleton in Ht as ->. set_solver.
    + assert (Hdom : (linkType, id) ∉ dom idx) by (by apply not_elem_of_dom).
      rewrite (decide_False _ _ Hdom).
      exists st. split; [done|split; [done|split; [done|]]].
      intros t Ht [x Hx]. apply list_elem_of_singleton in Ht as ->. congruence.
Qed.
End WalkSound.

Lemma expand_sound fuel : forall active k st,
  inv remove idx active st -> is_Some (idx !! k) -> k ∉ active -> k ∉ resolved st ->
  (pending idx active st <= fuel)%nat ->
  exists st', expand remove fuel active k st = Some st'
              /\ inv remove idx active st' /\ resolved st ⊆ resolved st' /\ k ∈ resolved st'.
Proof.
  induction fuel as [|fuel IH]; intros active k st Hinv [item Hitem] Hact Hres Hb.
  { pose proof (pending_push active k st (mk_is_Some _ _ Hitem) Hact Hres). lia. }
  cbn. rewrite (inv_store _ _ _ _ Hinv), Hitem. cbn. rewrite (decide_False _ _ Hres).
  destruct (entity_fields item) as [fs|] eqn:Hfs.
  - destruct (walk_props_sound
                (walk remove (expand remove fuel) ({[k]} ∪ active))
                (linked (dom idx) remove) markers ({[k]} ∪ active) fuel fs)
      with (st := st) as (st1 & Hw & Hinv1 & Hsub1 & Hmk1).
    + apply Forall_forall. intros p _. by apply walk_sound.
    + eapply inv_weaken; [|done]. set_solver.
    + pose proof (pending_push active k st (mk_is_Some _ _ Hitem) Hact Hres). lia.
    + rewrite Hw. eexists. split; [done|]. split; [|split; cbn; set_solver].
      split; cbn.
      * intros k'. destruct (decide (k = k')) as [<-|Hne].
        -- rewrite lookup_insert_eq, Hitem. cbn.
           rewrite decide_True by set_solver.
           unfold linked_entity. by rewrite Hfs.
        -- rewrite lookup_insert_ne by done. rewrite (inv_store _ _ _ _ Hinv1).
           destruct (idx !! k'); [cbn|done].
           destruct (decide (k' ∈ resolved st1)), (decide (k' ∈ {[k]} ∪ resolved st1));
             first [done | set_solver].
      * intros k' item' t Hk' Hitem' Ht Hin.
        destruct (decide (k' = k)) as [->|Hne].
        -- assert (item' = item) as -> by congruence.
           unfold entity_markers in Ht. rewrite Hfs in Ht.
           specialize (Hmk1 t Ht Hin). set_solver.
        -- assert (k' ∈ resolved st1) by set_solver.
           pose proof (inv_closed _ _ _ _ Hinv1 k' item' t) as Hc.
           specialize (Hc ltac:(done) Hitem' Ht Hin). set_solver.
  - eexists. split; [done|]. split; [|split; cbn; set_solver].
    split; cbn.
    + intros k'. rewrite (inv_store _ _ _ _ Hinv).
      destruct (idx !! k') as [item'|] eqn:Hitem'; [cbn|done].
      destruct (decide (k' = k)) as [->|Hne].
      * assert (item' = item) as -> by congruence.
        rewrite (decide_False _ _ Hres). rewrite decide_True by set_solver.
        unfold linked_entity. by rewrite Hfs.
      * destruct (decide (k' ∈ resolved st)), (decide (k' ∈ {[k]} ∪ resolved st));
          first [done | set_solver].
    + intros k' item' t Hk' Hitem' Ht Hin.
      destruct (decide (k' = k)) as [->|Hne].
      * assert (item' = item) as -> by congruence.
        unfold entity_markers in Ht. rewrite Hfs in Ht. by apply elem_of_nil in Ht.
      * assert (k' ∈ resolved st) by set_solver.
        pose proof (inv_closed _ _ _ _ Hinv k' item' t) as Hc.
        specialize (Hc ltac:(done) Hitem' Ht Hin). set_solver.
Qed.

Lemma resolve_item_sound fuel item :
  sound_at remove idx (resolve_item remove fuel) (linked_item (dom idx) remove) item_markers ∅ fuel item.
Proof.
  intros st Hinv Hb. unfold resolve_item, linked_item, item_markers.
  destruct (item_key item) as [[kind id]|].
  - apply (walk_sound _ fuel (expand_sound fuel) ∅ (VLink kind id) st Hinv Hb).
  - unfold linked_entity, entity_markers.
    destruct (entity_fields item) as [fs|].
    + destruct (walk_props_sound
                  (walk remove (expand remove fuel) ∅)
                  (linked (dom idx) remove) markers ∅ fuel fs)
        with (st := st) as (st1 & Hw & Hinv1 & Hsub1 & Hmk1); [|done|done|].
      * apply Forall_forall. intros p _. apply walk_sound, expand_sound.
      * exists st1. by rewrite Hw.
    + exists st. split; [done|split; [done|split; [done|]]].
      intros t Ht. by apply elem_of_nil in Ht.
Qed.

Lemma inv_start : inv remove idx ∅ {| store := idx; resolved := ∅ |}.
Proof.
  split; cbn.
  - intros k. by destruct (idx !! k).
  - intros k item t Hk. set_solver.
Qed.

Lemma pending_start : (pending idx ∅ {| store := idx; resolved := ∅ |} <= size idx)%nat.
Proof.
  unfold pending. rewrite <- (size_dom (D := gset Key) idx).
  apply subseteq_size. set_solver.
Qed.

(** Every primary item is resolved, on fuel that is the size of the
    index: the run ends in a state that satisfies the invariant with an
    empty active path. *)
Lemma resolve_items_sound items :
  exists st', walk_list (resolve_item remove (size idx)) items
                {| store := idx; resolved := ∅ |}
              = Some (omap (linked_item (dom idx) remove) items, st')
              /\ inv remove idx ∅ st'
              /\ forall t, t ∈ mjoin (item_markers <$> items) -> is_Some (idx !! t) ->
                           t ∈ resolved st'.
Proof.
  destruct (walk_list_sound (resolve_item remove (size idx))
              (linked_item (dom idx) remove) item_markers ∅ (size idx) items)
    with (st := {| store := idx; resolved := ∅ |}) as (st' & Hw & Hinv & _ & Hmk).
  - apply Forall_forall. intros item _. apply resolve_item_sound.
  - apply inv_start.
  - apply pending_start.
  - exists st'. split; [done|split; [done|]].
    intros t Ht Hin. specialize (Hmk t Ht Hin). set_solver.
Qed.
End ResolverFacts.

(** *** The index *)

Lemma add_entity_dom (ko : option Key) (item : Value) (idx : Store) :
  dom (add_entity ko item idx) = dom idx ∪ list_to_set (option_list ko).
Proof.
  destruct ko as [k|]; cbn; [|set_solver].
  destruct (idx !! k) eqn:Hk.
  - apply (elem_of_dom_2 (D := gset Key)) in Hk. set_solver.
  - rewrite dom_insert_L. set_solver.
Qed.

Lemma add_entities_dom (key : Value -> option Key) entities : forall idx : Store,
  dom (foldl (fun acc item => add_entity (key item) item acc) idx entities)
  = dom idx ∪ list_to_set (omap key entities).
Proof.
  induction entities as [|item entities IH]; intros idx; cbn; [set_solver|].
  rewrite IH, add_entity_dom. destruct (key item); cbn; set_solver.
Qed.

Lemma index_bucket_dom (idx : Store) bucket :
  dom (index_bucket idx bucket) = dom idx ∪ list_to_set (bucket_keys bucket).
Proof.
  destruct bucket as [kind []]; cbn; try set_solver.
  apply add_entities_dom.
Qed.

Lemma index_buckets_dom includes : forall idx : Store,
  dom (foldl index_bucket idx includes)
  = dom idx ∪ list_to_set (mjoin (bucket_keys <$> includes)).
Proof.
  induction includes as [|bucket includes IH]; intros idx; cbn; [set_solver|].
  rewrite IH, index_bucket_dom. set_solver.
Qed.

(** The index addresses exactly the identities of [items] and [includes]. *)
Lemma payload_index_dom data k :
  is_Some (payload_index data !! k) <-> k ∈ payload_keys data.
Proof.
  rewrite <- (elem_of_dom (D := gset Key)).
  unfold payload_index, build_index, index_items, payload_keys.
  rewrite index_buckets_dom, add_entities_dom. set_solver.
Qed.

(** *** Reading resolved entities *)

Lemma get_set_prop name v ps : get_prop name (set_prop name v ps) = Some v.
Proof.
  induction ps as [|[n w] ps IH]; cbn.
  - by rewrite decide_True.
  - destruct (decide (n = name)) as [->|Hne]; cbn.
    + by rewrite decide_True.
    + by rewrite decide_False.
Qed.

Lemma entity_fields_with_fields fs fs' item :
  entity_fields item = Some fs -> entity_fields (with_fields fs' item) = Some fs'.
Proof.
  destruct item; try done. cbn. intros _. by rewrite get_set_prop.
Qed.

Lemma entity_fields_linked D remove item fs :
  entity_fields item = Some fs ->
  entity_fields (linked_entity D remove item) = Some (omap_props (linked D remove) fs).
Proof.
  intros Hfs. unfold linked_entity. rewrite Hfs. by eapply entity_fields_with_fields.
Qed.

Lemma get_prop_omap g name ps v v' :
  get_prop name ps = Some v -> g v = Some v' ->
  get_prop name (omap_props g ps) = Some v'.
Proof.
  intros Hget Hg. induction ps as [|[n w] ps IH]; [done|]. cbn in *.
  destruct (decide (n = name)) as [->|Hne].
  - simplify_eq. rewrite Hg. cbn. by rewrite decide_True.
  - destruct (g w); cbn; [rewrite decide_False by done|]; by apply IH.
Qed.

Lemma omap_props_app g ps qs :
  omap_props g (ps ++ qs)%list = (omap_props g ps ++ omap_props g qs)%list.
Proof.
  induction ps as [|[n v] ps IH]; [done|]. cbn. rewrite IH. by destruct (g v).
Qed.

Lemma entity_field_linked D remove name item v v' :
  entity_field name item = Some v -> linked D remove v = Some v' ->
  entity_field name (linked_entity D remove item) = Some v'.
Proof.
  unfold entity_field. destruct (entity_fields item) as [fs|] eqn:Hfs; [|done].
  intros Hget Hv. rewrite (entity_fields_linked _ _ _ _ Hfs). by eapply get_prop_omap.
Qed.

(** [entity_field] is what the path [.fields.name] reads. *)
Lemma entity_field_prop name item v :
  entity_field name item = Some v -> prop name (prop "fields" item) = v.
Proof.
  unfold entity_field, entity_fields. destruct item as [| | | | | |ps| | |]; try done.
  cbn. destruct (get_prop "fields" ps) as [[| | | | | |fs| | |]|]; try done.
  cbn. by intros ->.
Qed.

Lemma get_prop_markers name ps v t :
  get_prop name ps = Some v -> t ∈ markers v -> t ∈ mjoin ((fun p => markers p.2) <$> ps).
Proof.
  intros Hget Ht. induction ps as [|[n w] ps IH]; [done|]. cbn in *.
  apply elem_of_app. destruct (decide (n = name)); simplify_eq; auto.
Qed.

Lemma entity_field_markers name item v t :
  entity_field name item = Some v -> t ∈ markers v -> t ∈ entity_markers item.
Proof.
  unfold entity_field, entity_markers. destruct (entity_fields item); [|done].
  apply get_prop_markers.
Qed.

Lemma elem_of_props_markers (ps : Props) name v t :
  (name, v) ∈ ps -> t ∈ markers v -> t ∈ mjoin ((fun p => markers p.2) <$> ps).
Proof.
  intros Hin Ht. induction ps as [|p ps IH]; [by apply elem_of_nil in Hin|].
  cbn. apply elem_of_app. apply elem_of_cons in Hin as [<-|Hin]; auto.
Qed.

(** *** The resolved graph *)

Lemma resolve_links_unfold remove ps items :
  get_prop "items" ps = Some (VArr items) ->
  resolve_links remove (VObj ps)
  = match walk_list (resolve_item remove (size (payload_index (VObj ps)))) items
            {| store := payload_index (VObj ps); resolved := ∅ |} with
    | None => None
    | Some (items', st) =>
        Some {| r_val := with_items items' (VObj ps); r_store := store st |}
    end.
Proof.
  intros Hitems. unfold resolve_links, payload_index, payload_items.
  cbn [prop]. rewrite Hitems. reflexivity.
Qed.

(** Resolution returns, and its store holds every reachable entity with
    its fields walked, the slots of the primary items being [linked_item]. *)
Lemma resolve_links_sound remove ps items :
  get_prop "items" ps = Some (VArr items) ->
  exists st,
    resolve_links remove (VObj ps)
    = Some {| r_val := with_items
                         (omap (linked_item (dom (payload_index (VObj ps))) remove) items)
                         (VObj ps);
              r_store := store st |}
    /\ forall k item,
         reachable (payload_index (VObj ps)) items k ->
         payload_index (VObj ps) !! k = Some item ->
         store st !! k = Some (linked_entity (dom (payload_index (VObj ps))) remove item).
Proof.
  intros Hitems. rewrite (resolve_links_unfold remove ps items Hitems).
  destruct (resolve_items_sound remove (payload_index (VObj ps)) items)
    as (st & Hw & Hinv & Hmk).
  exists st. rewrite Hw. split; [done|].
  assert (Hreach : forall k, reachable (payload_index (VObj ps)) items k -> k ∈ resolved st).
  { induction 1 as [item k Hitem Hk Hin|k item t _ IH Hitem Ht Hin].
    - apply Hmk; [|done]. apply list_elem_of_join. exists (item_markers item).
      split; [done|]. by apply list_elem_of_fmap_2.
    - pose proof (inv_closed _ _ _ _ Hinv k item t IH Hitem Ht Hin). set_solver. }
  intros k item Hk Hitem. rewrite (inv_store _ _ _ _ Hinv), Hitem. cbn.
  by rewrite decide_True by auto.
Qed.

(** Resolution returns on every payload. *)
Lemma resolve_links_total remove data : is_Some (resolve_links remove data).
Proof.
  destruct data as [| | | | | |ps| | |]; try by eexists.
  destruct (get_prop "items" ps) as [items|] eqn:Hitems.
  - destruct items as [| | | | |items| | | |];
      try (unfold resolve_links; cbn [prop]; rewrite Hitems; by eexists).
    destruct (resolve_links_sound remove ps items Hitems) as (st & -> & _). by eexists.
  - unfold resolve_links. cbn [prop]. rewrite Hitems. by eexists.
Qed.

(** With [resolveLinks] on, [resolveCircular] is the resolved graph. *)
Lemma resolveCircular_resolves remove data :
  exists r, resolve_links remove data = Some r /\ resolveCircular data true remove = r.
Proof.
  destruct (resolve_links_total remove data) as [r Hr]. exists r.
  split; [done|]. unfold resolveCircular. by rewrite Hr.
Qed.

Lemma linked_target D remove kind id :
  (kind, id) ∈ D -> linked D remove (VLink kind id) = Some (VRef kind id).
Proof. intros Hin. cbn. by rewrite decide_True. Qed.

Lemma linked_unresolved D remove kind id :
  (kind, id) ∉ D ->
  linked D remove (VLink kind id) = if remove then None else Some (VLink kind id).
Proof. intros Hin. cbn. by rewrite decide_False. Qed.

Lemma omap_unresolved D remove kind id l1 l2 :
  (kind, id) ∉ D ->
  omap (linked D remove) (l1 ++ VLink kind id :: l2)%list
  = (omap (linked D remove) l1 ++ unresolved_slot remove (VLink kind id)
     ++ omap (linked D remove) l2)%list.
Proof.
  intros Hin. rewrite omap_app. f_equal.
  change (omap (linked D remove) (VLink kind id :: l2))
    with (match linked D remove (VLink kind id) with
          | Some y => y :: omap (linked D remove) l2
          | None => omap (linked D remove) l2
          end).
  rewrite linked_unresolved by done. by destruct remove.
Qed.

Lemma omap_props_unresolved D remove kind id name m1 m2 :
  (kind, id) ∉ D ->
  omap_props (linked D remove) (m1 ++ (name, VLink kind id) :: m2)%list
  = (omap_props (linked D remove) m1
     ++ ((fun v => (name, v)) <$> unresolved_slot remove (VLink kind id))
     ++ omap_props (linked D remove) m2)%list.
Proof.
  intros Hin. rewrite omap_props_app. f_equal.
  change (omap_props (linked D remove) ((name, VLink kind id) :: m2))
    with (match linked D remove (VLink kind id) with
          | Some y => (name, y) :: omap_props (linked D remove) m2
          | None => omap_props (linked D remove) m2
          end).
  rewrite linked_unresolved by done. by destruct remove.
Qed.

Lemma omap_props_cons_some g name v v' (ps : Props) :
  g v = Some v' -> omap_props g ((name, v) :: ps) = (name, v') :: omap_props g ps.
Proof. intros Hg. cbn. by rewrite Hg. Qed.

Lemma deref_lookup (st : Store) (k : Key) item :
  st !! k = Some item -> deref st (VRef k.1 k.2) = item.
Proof. destruct k as [kind id]. cbn. by intros ->. Qed.

Lemma field_resolved (st : Store) D remove (k : Key) item name v v' :
  st !! k = Some (linked_entity D remove item) ->
  entity_field name item = Some v ->
  linked D remove v = Some v' ->
  field st name (VRef k.1 k.2) = v'.
Proof.
  intros Hk Hv Hl. unfold field. rewrite (deref_lookup _ _ _ Hk).
  apply entity_field_prop. by eapply entity_field_linked.
Qed.

(** C3: a payload with a cycle between two entities resolves: the run
    returns, each of the two fields holds the pointer to the other entity,
    so that the friend's friend of the first is the first entity's own
    store cell; and a marker whose target is on the active path is linked
    at once, whatever expansion would do and without a change of state. *)
Theorem cycle_resolves_to_back_reference remove ps items a kA itemA fA kB itemB fB :
  get_prop "items" ps = Some (VArr items) ->
  a ∈ items -> item_key a = Some kA ->
  payload_index (VObj ps) !! kA = Some itemA ->
  entity_field fA itemA = Some (VLink kB.1 kB.2) ->
  payload_index (VObj ps) !! kB = Some itemB ->
  entity_field fB itemB = Some (VLink kA.1 kA.2) ->
  exists r,
    resolve_links remove (VObj ps) = Some r
    /\ resolveCircular (VObj ps) true remove = r
    /\ field (r_store r) fA (VRef kA.1 kA.2) = VRef kB.1 kB.2
    /\ field (r_store r) fB (VRef kB.1 kB.2) = VRef kA.1 kA.2
    /\ field (r_store r) fB (field (r_store r) fA (VRef kA.1 kA.2)) = VRef kA.1 kA.2
    /\ forall descend active st,
         kA ∈ active -> is_Some (store st !! kA) ->
         walk remove descend active (VLink kA.1 kA.2) st = Some (Some (VRef kA.1 kA.2), st).
Proof.
  intros Hitems Ha HkA HitemA HfA HitemB HfB.
  destruct (resolve_links_sound remove ps items Hitems) as (st & Hr & Hst).
  assert (HrA : reachable (payload_index (VObj ps)) items kA).
  { apply (reach_item _ _ a); [done| |by eauto].
    unfold item_markers. rewrite HkA. apply list_elem_of_singleton. done. }
  assert (HrB : reachable (payload_index (VObj ps)) items kB).
  { apply (reach_link _ _ kA itemA); [done|done| |by eauto].
    eapply entity_field_markers; [done|]. cbn. apply list_elem_of_singleton.
    by destruct kB. }
  assert (HA : field (store st) fA (VRef kA.1 kA.2) = VRef kB.1 kB.2).
  { eapply field_resolved; [by apply Hst|done|].
    apply linked_target. destruct kB. apply elem_of_dom. by eauto. }
  assert (HB : field (store st) fB (VRef kB.1 kB.2) = VRef kA.1 kA.2).
  { eapply field_resolved; [by apply Hst|done|].
    apply linked_target. destruct kA. apply elem_of_dom. by eauto. }
  eexists. split; [exact Hr|]. split; [unfold resolveCircular; by rewrite Hr|].
  cbn [r_store].
  split; [done|]. split; [done|]. split; [by rewrite HA|].
  intros descend active st0 Hact [x Hx]. destruct kA as [kind id]. cbn in *.
  rewrite Hx. by rewrite decide_True.
Qed.

(** C4: a marker that matches no entity of [items] or [includes] never
    makes resolution fail, and in every entity the resolver gets to the
    slot that held it (a field, an array slot, a locale) is gone when
    [removeUnresolved] is on and holds the marker as it was when off; the
    slots around it are resolved as usual. *)
Theorem unresolved_marker_follows_policy remove ps items k item fs kind id :
  get_prop "items" ps = Some (VArr items) ->
  reachable (payload_index (VObj ps)) items k ->
  payload_index (VObj ps) !! k = Some item ->
  entity_fields item = Some fs ->
  (kind, id) ∉ payload_keys (VObj ps) ->
  exists r,
    resolve_links remove (VObj ps) = Some r
    /\ resolveCircular (VObj ps) true remove = r
    /\ (forall pre name post,
          fs = (pre ++ (name, VLink kind id) :: post)%list ->
          entity_fields (deref (r_store r) (VRef k.1 k.2))
          = Some (omap_props (linked (dom (payload_index (VObj ps))) remove) pre
                  ++ ((fun v => (name, v)) <$> unresolved_slot remove (VLink kind id))
                  ++ omap_props (linked (dom (payload_index (VObj ps))) remove) post)%list)
    /\ (forall pre name l1 l2 post,
          fs = (pre ++ (name, VArr (l1 ++ VLink kind id :: l2)) :: post)%list ->
          entity_fields (deref (r_store r) (VRef k.1 k.2))
          = Some (omap_props (linked (dom (payload_index (VObj ps))) remove) pre
                  ++ (name, VArr (omap (linked (dom (payload_index (VObj ps))) remove) l1
                                  ++ unresolved_slot remove (VLink kind id)
                                  ++ omap (linked (dom (payload_index (VObj ps))) remove) l2))
                     :: omap_props (linked (dom (payload_index (VObj ps))) remove) post)%list)
    /\ (forall pre name m1 locale m2 post,
          fs = (pre ++ (name, VLocale (m1 ++ (locale, VLink kind id) :: m2)) :: post)%list ->
          entity_fields (deref (r_store r) (VRef k.1 k.2))
          = Some (omap_props (linked (dom (payload_index (VObj ps))) remove) pre
                  ++ (name, VLocale
                              (omap_props (linked (dom (payload_index (VObj ps))) remove) m1
                               ++ ((fun v => (locale, v)) <$> unresolved_slot remove (VLink kind id))
                               ++ omap_props (linked (dom (payload_index (VObj ps))) remove) m2))
                     :: omap_props (linked (dom (payload_index (VObj ps))) remove) post)%list).
Proof.
  intros Hitems Hk Hitem Hfs Hnone.
  destruct (resolve_links_sound remove ps items Hitems) as (st & Hr & Hst).
  assert (Hdom : (kind, id) ∉ dom (payload_index (VObj ps))).
  { rewrite elem_of_dom. by rewrite payload_index_dom. }
  assert (Hfields : entity_fields (deref (store st) (VRef k.1 k.2))
                    = Some (omap_props (linked (dom (payload_index (VObj ps))) remove) fs)).
  { rewrite (deref_lookup _ _ _ (Hst k item Hk Hitem)). by apply entity_fields_linked. }
  eexists. split; [exact Hr|]. split; [unfold resolveCircular; by rewrite Hr|].
  cbn [r_store]. rewrite Hfields.
  split; [|split].
  - intros pre name post ->. f_equal. by apply omap_props_unresolved.
  - intros pre name l1 l2 post ->. f_equal. rewrite omap_props_app. f_equal.
    rewrite (omap_props_cons_some _ _ _
               (VArr (omap (linked (dom (payload_index (VObj ps))) remove)
                        (l1 ++ VLink kind id :: l2)%list))) by done.
    by rewrite omap_unresolved.
  - intros pre name m1 locale m2 post ->. f_equal. rewrite omap_props_app. f_equal.
    rewrite (omap_props_cons_some _ _ _
               (VLocale (omap_props (linked (dom (payload_index (VObj ps))) remove)
                           (m1 ++ (locale, VLink kind id) :: m2)%list))) by done.
    by rewrite omap_props_unresolved.
Qed.

(** C5: a marker of a resolved entity whose [(kind, id)] exists in [items]
    or [includes] is replaced by the pointer to the store cell of that
    entity, which holds the entity with its own fields resolved; any other
    marker with the same [(kind, id)] is replaced by the same pointer, to
    the same cell. *)
Theorem resolved_marker_shares_target remove ps items k item name kind id :
  get_prop "items" ps = Some (VArr items) ->
  reachable (payload_index (VObj ps)) items k ->
  payload_index (VObj ps) !! k = Some item ->
  entity_field name item = Some (VLink kind id) ->
  (kind, id) ∈ payload_keys (VObj ps) ->
  exists r target,
    resolve_links remove (VObj ps) = Some r
    /\ resolveCircular (VObj ps) true remove = r
    /\ payload_index (VObj ps) !! (kind, id) = Some target
    /\ field (r_store r) name (VRef k.1 k.2) = VRef kind id
    /\ r_store r !! (kind, id)
       = Some (linked_entity (dom (payload_index (VObj ps))) remove target)
    /\ (forall k' item' name',
          reachable (payload_index (VObj ps)) items k' ->
          payload_index (VObj ps) !! k' = Some item' ->
          entity_field name' item' = Some (VLink kind id) ->
          field (r_store r) name' (VRef k'.1 k'.2) = field (r_store r) name (VRef k.1 k.2)
          /\ deref (r_store r) (field (r_store r) name' (VRef k'.1 k'.2))
             = deref (r_store r) (field (r_store r) name (VRef k.1 k.2)))
    /\ (forall k' item' fs',
          reachable (payload_index (VObj ps)) items k' ->
          payload_index (VObj ps) !! k' = Some item' ->
          entity_fields item' = Some fs' ->
          entity_fields (deref (r_store r) (VRef k'.1 k'.2))
          = Some (omap_props (linked (dom (payload_index (VObj ps))) remove) fs'))
    /\ linked (dom (payload_index (VObj ps))) remove (VLink kind id) = Some (VRef kind id).
Proof.
  intros Hitems Hk Hitem Hname Hexists.
  destruct (resolve_links_sound remove ps items Hitems) as (st & Hr & Hst).
  apply payload_index_dom in Hexists as [target Htarget].
  assert (Hdom : (kind, id) ∈ dom (payload_index (VObj ps))).
  { apply elem_of_dom. by eauto. }
  assert (Hreach : reachable (payload_index (VObj ps)) items (kind, id)).
  { apply (reach_link _ _ k item); [done|done| |by eauto].
    eapply entity_field_markers; [done|]. cbn. by apply list_elem_of_singleton. }
  assert (Hfield : forall k' item' name',
             reachable (payload_index (VObj ps)) items k' ->
             payload_index (VObj ps) !! k' = Some item' ->
             entity_field name' item' = Some (VLink kind id) ->
             field (store st) name' (VRef k'.1 k'.2) = VRef kind id).
  { intros k' item' name' Hk' Hitem' Hname'.
    eapply field_resolved; [by apply Hst|done|]. by apply linked_target. }
  exists {| r_val := with_items
                       (omap (linked_item (dom (payload_index (VObj ps))) remove) items)
                       (VObj ps);
            r_store := store st |}, target.
  cbn [r_store].
  split; [exact Hr|]. split; [unfold resolveCircular; by rewrite Hr|].
  split; [done|]. split; [by eapply Hfield|].
  split; [by apply Hst|]. split; [|split].
  - intros k' item' name' Hk' Hitem' Hname'.
    rewrite (Hfield k' item' name' Hk' Hitem' Hname'), (Hfield k item name Hk Hitem Hname).
    done.
  - intros k' item' fs' Hk' Hitem' Hfs'.
    rewrite (deref_lookup _ _ _ (Hst k' item' Hk' Hitem')). by apply entity_fields_linked.
  - by apply linked_target.
Qed.

(** *** The resolver at the sample payload *)

Lemma cycle_resolves_to_back_reference_witness :
  (cat ∈ sample_items)
  /\ payload_index sample_payload !! ("Entry", "cat") = Some cat
  /\ payload_index sample_payload !! ("Entry", "dog") = Some dog
  /\ exists r,
       resolve_links false sample_payload = Some r
       /\ field (r_store r) "friend" (VRef "Entry" "cat") = VRef "Entry" "dog"
       /\ field (r_store r) "friend" (field (r_store r) "friend" (VRef "Entry" "cat"))
          = VRef "Entry" "cat".
Proof.
  assert (Hcat : cat ∈ sample_items) by (unfold sample_items; repeat constructor).
  assert (HA : payload_index sample_payload !! ("Entry", "cat") = Some cat)
    by (vm_compute; reflexivity).
  assert (HB : payload_index sample_payload !! ("Entry", "dog") = Some dog)
    by (vm_compute; reflexivity).
  split; [exact Hcat|]. split; [exact HA|]. split; [exact HB|].
  destruct (cycle_resolves_to_back_reference false sample_props sample_items
              cat ("Entry", "cat") cat "friend" ("Entry", "dog") dog "friend"
              eq_refl Hcat eq_refl HA eq_refl HB eq_refl)
    as (r & Hr & _ & H1 & _ & H2 & _).
  exists r. split; [exact Hr|]. split; [exact H1|exact H2].
Defined.

Lemma zoo_reachable : reachable (payload_index sample_payload) sample_items ("Entry", "zoo").
Proof.
  apply (reach_item _ _ zoo).
  - unfold sample_items. constructor.
  - apply list_elem_of_singleton. reflexivity.
  - exists zoo. vm_compute. reflexivity.
Defined.

Lemma unresolved_marker_follows_policy_witness :
  (("Animal", "ghost") ∉ payload_keys sample_payload)
  /\ exists r,
       resolve_links true sample_payload = Some r
       /\ entity_fields (deref (r_store r) (VRef "Entry" "zoo"))
          = Some [("animal", VRef "Animal" "oink");
                  ("pets", VArr [VRef "Animal" "oink"]);
                  ("mascot", VLocale [("en-US", VRef "Animal" "oink")]);
                  ("favourite", VRef "Animal" "oink")].
Proof.
  assert (Hnone : ("Animal", "ghost") ∉ payload_keys sample_payload).
  { refine (bool_decide_unpack _ _). vm_compute. exact I. }
  split; [exact Hnone|].
  destruct (unresolved_marker_follows_policy true sample_props sample_items
              ("Entry", "zoo") zoo
              [("animal", VLink "Animal" "oink");
               ("anotheranimal", VLink "Animal" "middle-parrot");
               ("pets", VArr [VLink "Animal" "oink"; VLink "Animal" "ghost"]);
               ("mascot", VLocale [("en-US", VLink "Animal" "oink");
                                   ("de-DE", VLink "Animal" "ghost")]);
               ("favourite", VLink "Animal" "oink")]
              "Animal" "ghost" eq_refl zoo_reachable)
    as (r & Hr & _ & _ & Harr & _); [vm_compute; reflexivity|reflexivity|exact Hnone|].
  exists r. split; [exact Hr|]. cbn [fst snd] in Harr.
  rewrite (Harr [("animal", VLink "Animal" "oink");
                 ("anotheranimal", VLink "Animal" "middle-parrot")]
             "pets" [VLink "Animal" "oink"] []
             [("mascot", VLocale [("en-US", VLink "Animal" "oink");
                                  ("de-DE", VLink "Animal" "ghost")]);
              ("favourite", VLink "Animal" "oink")] eq_refl).
  vm_compute. reflexivity.
Defined.

Lemma resolved_marker_shares_target_witness :
  (("Animal", "oink") ∈ payload_keys sample_payload)
  /\ exists r,
       resolve_links false sample_payload = Some r
       /\ field (r_store r) "animal" (VRef "Entry" "zoo") = VRef "Animal" "oink"
       /\ field (r_store r) "favourite" (VRef "Entry" "zoo")
          = field (r_store r) "animal" (VRef "Entry" "zoo")
       /\ field (r_store r) "name" (field (r_store r) "animal" (VRef "Entry" "zoo"))
          = VStr "Pig".
Proof.
  assert (Hin : ("Animal", "oink") ∈ payload_keys sample_payload).
  { refine (bool_decide_unpack _ _). vm_compute. exact I. }
  split; [exact Hin|].
  destruct (resolved_marker_shares_target false sample_props sample_items
              ("Entry", "zoo") zoo "animal" "Animal" "oink" eq_refl zoo_reachable)
    as (r & target & Hr & _ & Htarget & Hfield & Hcell & Hshare & _);
    [vm_compute; reflexivity|reflexivity|exact Hin|].
  cbn [fst snd] in Hfield.
  exists r. split; [exact Hr|]. split; [exact Hfield|]. split.
  - apply (Hshare ("Entry", "zoo") zoo "favourite" zoo_reachable);
      [vm_compute; reflexivity|reflexivity].
  - rewrite Hfield. unfold field. cbn [deref]. rewrite Hcell.
    assert (target = oink) as ->.
    { assert (Hoink : payload_index sample_payload !! ("Animal", "oink") = Some oink)
        by (vm_compute; reflexivity).
      change (VObj sample_props) with sample_payload in Htarget. congruence. }
    vm_compute. reflexivity.
Defined.

(** The scenario of the specification: the items carry no [sys.type], the
    included animal is found under the name of its bucket. *)
Example spec_scenario :
  exists r,
    resolve_links false
      (VObj [("items", VArr [VObj [("sys", VObj [("id", VStr "e1")]);
                                   ("fields", VObj [("animal", VLink "Animal" "oink")])]]);
             ("includes", VObj [("Animal", VArr [VObj [("sys", VObj [("id", VStr "oink")]);
                                                       ("fields", VObj [("name", VStr "Pig")])]])])])
    = Some r
    /\ field (r_store r) "name"
         (field (r_store r) "animal" (first_of (prop "items" (r_val r)))) = VStr "Pig".
Proof. eexists. split; vm_compute; reflexivity. Qed.

(** The sample payload, resolved with removal: the three entries and the
    pig are shared cells, the cycle is closed by pointers. *)
Example sample_resolved :
  exists r,
    resolve_links true sample_payload = Some r
    /\ prop "items" (r_val r) = VArr [VRef "Entry" "zoo"; VRef "Entry" "cat"; VRef "Entry" "dog"]
    /\ prop "total" (r_val r) = VNum 3
    /\ dom (r_store r)
       = {[("Entry", "zoo"); ("Entry", "cat"); ("Entry", "dog"); ("Animal", "oink")]}
    /\ entity_fields (deref (r_store r) (VRef "Animal" "oink")) = Some [("name", VStr "Pig")]
    /\ field (r_store r) "friend" (VRef "Entry" "dog") = VRef "Entry" "cat".
Proof. eexists. repeat split; vm_compute; reflexivity. Qed.

(** ** The client: requests, results and errors of every method *)

(** *** The request URL *)

Lemma append_cons c (s t : string) : String c s +:+ t = String c (s +:+ t).
Proof. reflexivity. Qed.

Lemma append_empty (t : string) : "" +:+ t = t.
Proof. reflexivity. Qed.

Lemma append_assoc (s t u : string) : (s +:+ t) +:+ u = s +:+ t +:+ u.
Proof.
  induction s as [|c s IH]; [done|].
  rewrite !append_cons. by rewrite IH.
Qed.

Lemma length_append (s t : string) :
  String.length (s +:+ t) = (String.length s + String.length t)%nat.
Proof.
  induction s as [|c s IH]; [done|].
  rewrite append_cons. cbn. by rewrite IH.
Qed.

Lemma substring_all (s : string) : String.substring 0 (String.length s) s = s.
Proof. induction s as [|c s IH]; cbn; [done|]. by rewrite IH. Qed.

Lemma substring_append_r (s t : string) :
  String.substring (String.length s) (String.length t) (s +:+ t) = t.
Proof.
  induction s as [|c s IH]; [rewrite append_empty; apply substring_all|].
  rewrite append_cons. cbn. exact IH.
Qed.

Lemma substring_split (n : nat) : forall (s : string) (m : nat),
  (n + m)%nat = String.length s ->
  s = String.substring 0 n s +:+ String.substring n m s.
Proof.
  induction n as [|n IH]; intros s m Hlen; cbn in Hlen.
  - subst m. rewrite substring_all. by destruct s.
  - destruct s as [|c s]; [done|]. cbn in Hlen. cbn [String.substring].
    rewrite append_cons. f_equal. apply IH. lia.
Qed.

(** [endsWith] is the suffix test. *)
Lemma endsWith_spec (s suffix : string) :
  endsWith s suffix = true <-> exists stem, s = stem +:+ suffix.
Proof.
  unfold endsWith. split.
  - destruct (decide _) as [Hle|]; [|done]. intros Heq%String.eqb_eq.
    exists (String.substring 0 (String.length s - String.length suffix) s).
    rewrite <- Heq at 2. apply substring_split. lia.
  - intros [stem ->]. rewrite length_append.
    rewrite decide_True by lia.
    replace (String.length stem + String.length suffix - String.length suffix)%nat
      with (String.length stem) by lia.
    rewrite substring_append_r. apply String.eqb_refl.
Qed.

Lemma with_trailing_slash_ends (baseUrl : string) :
  endsWith (with_trailing_slash baseUrl) "/" = true.
Proof.
  unfold with_trailing_slash. destruct (endsWith baseUrl "/") eqn:Hends; [done|].
  apply endsWith_spec. by eexists.
Qed.

(** X1: the URL handed to the transport is the base URL, the path, and
    exactly one slash between them when the base URL does not already end
    in one: a base URL written with or without its trailing slash requests
    the same URL, and normalising twice changes nothing. *)
Theorem request_url_one_slash (env : Collaborators) (context : RequestContext)
    (path stem : string) :
  configured_base_url env context = Some stem \/
  configured_base_url env context = Some (stem +:+ "/") ->
  endsWith stem "/" = false ->
  request_url env context path = stem +:+ "/" +:+ path
  /\ with_trailing_slash (with_trailing_slash stem) = with_trailing_slash stem
  /\ with_trailing_slash (stem +:+ "/") = with_trailing_slash stem.
Proof.
  intros Hbase Hstem.
  assert (Hslash : endsWith (stem +:+ "/") "/" = true).
  { apply endsWith_spec. by eexists. }
  assert (Hnorm : with_trailing_slash stem = stem +:+ "/").
  { unfold with_trailing_slash. by rewrite Hstem. }
  assert (Hnorm' : with_trailing_slash (stem +:+ "/") = stem +:+ "/").
  { unfold with_trailing_slash. by rewrite Hslash. }
  split; [|split].
  - unfold request_url.
    destruct Hbase as [-> | ->]; cbn [default from_option id];
      rewrite ?Hnorm, ?Hnorm'; apply append_assoc.
  - by rewrite Hnorm, Hnorm'.
  - by rewrite Hnorm, Hnorm'.
Qed.

Lemma request_url_one_slash_witness :
  configured_base_url sample_env CtxSpace
  = Some "https://cdn.contentful.com/spaces/cfexampleapi"
  /\ endsWith "https://cdn.contentful.com/spaces/cfexampleapi" "/" = false
  /\ request_url sample_env CtxSpace "entries"
     = "https://cdn.contentful.com/spaces/cfexampleapi/entries".
Proof.
  split; [reflexivity|]. split; [reflexivity|].
  apply (request_url_one_slash sample_env CtxSpace "entries"
           "https://cdn.contentful.com/spaces/cfexampleapi" (or_introl eq_refl) eq_refl).
Defined.

(** *** What a call leaves on the [http] instance *)

Lemma quiet_ret {A} (a : A) : quiet (ret a).
Proof. by intros h. Qed.

Lemma quiet_throw {A} e : quiet (@throw A e).
Proof. by intros h. Qed.

Lemma quiet_member {A} name v (k : Value -> M A) :
  (forall x, quiet (k x)) -> quiet (member name v k).
Proof. intros Hk. unfold member. destruct (nullish v); [apply quiet_throw | apply Hk]. Qed.

Lemma quiet_errorHandler {A} error : quiet (@errorHandler A error).
Proof. intros h. by destruct (@errorHandler_throws A error h) as [e ->]. Qed.

Lemma snd_bind_quiet {A B} (m : M A) (k : A -> M B) h :
  (forall a, quiet (k a)) -> snd (bind m k h) = snd (m h).
Proof.
  intros Hk. unfold bind. destruct (m h) as [[a|e] h1]; cbn; [apply Hk|done].
Qed.

Lemma snd_try_catch_quiet {A} (m : M A) handler h :
  (forall e, quiet (handler e)) -> snd (try_catch m handler h) = snd (m h).
Proof.
  intros Hh. unfold try_catch. destruct (m h) as [[a|e] h1]; cbn; [done|apply Hh].
Qed.

Lemma truthy_not_nullish v : truthy v = true -> nullish v = false.
Proof. by destruct v. Qed.

(** What the handler throws for an error object is again an object or a
    truthy value: a second handler can read it. *)
Lemma unwrapped_not_nullish error : nullish error = false -> nullish (unwrapped error) = false.
Proof.
  intros Hobj. unfold unwrapped.
  destruct (truthy (prop "data" error)) eqn:Hdata; [by apply truthy_not_nullish|].
  destruct (truthy (prop "response" error)); cbn; [|done].
  destruct (truthy (prop "data" (prop "response" error))) eqn:Hbody; [|done].
  by apply truthy_not_nullish.
Qed.

(** An [Error] made from a message has neither [data] nor [response]. *)
Lemma errorHandler_mkError {A} msg h : @errorHandler A (mkError msg) h = (Thrown (mkError msg), h).
Proof. reflexivity. Qed.

Lemma errorHandler_TypeError {A} name h :
  @errorHandler A (TypeError name) h = (Thrown (TypeError name), h).
Proof. reflexivity. Qed.

Section ClientRuns.
Variable env : Collaborators.

Lemma snd_get context path config h :
  snd (get env context path config h)
  = if url_missing (configured_base_url env context) then h
    else logged (request_url env context path) config h.
Proof.
  unfold get. destruct (url_missing _); [done|].
  rewrite snd_try_catch_quiet by (intros e; apply quiet_errorHandler).
  rewrite snd_bind_quiet by (intros response; apply quiet_member; intros x; apply quiet_ret).
  unfold request, request_url, logged. by destruct (http_get _ _ _ _).
Qed.

Lemma snd_getEntries query h :
  snd (getEntries env query h)
  = snd (get env CtxEnvironment "entries"
           (createRequestConfig env
              (VObj [("query", normalizeSelect env (or_default (VObj []) query))])) h).
Proof.
  unfold getEntries.
  rewrite snd_try_catch_quiet by (intros e; apply quiet_errorHandler).
  by rewrite snd_bind_quiet by (intros entries; apply quiet_ret).
Qed.

Lemma snd_getEntry id query h :
  snd (getEntry env id query h)
  = if truthy id then snd (getEntries env (entry_query id query) h) else h.
Proof.
  unfold getEntry, entry_query. destruct (truthy id); cbn [negb]; [|done].
  rewrite snd_try_catch_quiet by (intros e; apply quiet_errorHandler).
  rewrite snd_bind_quiet; [done|].
  intros response. apply quiet_member; intros items. apply quiet_member; intros _.
  destruct (js_length items) as [[|n]|]; first [apply quiet_throw | apply quiet_ret].
Qed.

Lemma snd_plain m h : snd (plain m h) = snd (m h).
Proof. unfold plain. apply snd_bind_quiet. intros v. apply quiet_ret. Qed.

Lemma invoke_post_state (c : Call) h :
  is_sync c = false ->
  snd (invoke env c h)
  = match call_request env c with
    | Some (url, config) =>
        if url_missing (configured_base_url env (call_context c)) then h
        else logged url config h
    | None => h
    end.
Proof.
  intros Hc. destruct c; try discriminate Hc; cbn [invoke call_request call_context];
    rewrite ?snd_plain;
    try (unfold getSpace, getContentType, getContentTypes, getAsset, getAssets, getLocales;
         by rewrite snd_get).
  - rewrite snd_getEntry. destruct (truthy id); [|done].
    by rewrite snd_getEntries, snd_get.
  - by rewrite snd_getEntries, snd_get.
  - done.
Qed.

(** X2: every method but [sync] hands at most one request to the
    transport and changes nothing else on the [http] instance: the
    instance after the call is the one before it when the call stops
    before requesting ([parseEntries], [getEntry] of a falsy id, a missing
    base URL), and otherwise the one before it with the single request of
    the call logged, whatever the transport answered. *)
Theorem call_sends_one_request (c : Call) h :
  is_sync c = false ->
  snd (invoke env c h)
  = match call_request env c with
    | Some (url, config) =>
        if url_missing (configured_base_url env (call_context c)) then h
        else logged url config h
    | None => h
    end.
Proof. apply invoke_post_state. Qed.

(** X3: with a base URL configured, [get] returns [response.data] of the
    response the transport gave, and when the transport answers or rejects
    with [undefined] or [null] the caller gets the [TypeError] of the
    failed property read instead. *)
Theorem get_result_of_response context path config h :
  url_missing (configured_base_url env context) = false ->
  (forall response,
      http_get env h (request_url env context path) config = inr response ->
      nullish response = false ->
      fst (get env context path config h) = Returned (prop "data" response))
  /\ (forall r,
        http_get env h (request_url env context path) config = inr r \/
        http_get env h (request_url env context path) config = inl r ->
        nullish r = true ->
        fst (get env context path config h) = Thrown (TypeError "data")).
Proof.
  intros Hurl. unfold get. rewrite Hurl.
  unfold try_catch, bind, request. fold (request_url env context path).
  split.
  - intros response -> Hobj. by rewrite member_object.
  - intros r [-> | ->] Hnull.
    + unfold member. rewrite Hnull. unfold throw at 1. by rewrite errorHandler_TypeError.
    + unfold errorHandler, member. by rewrite Hnull.
Qed.
End ClientRuns.

Lemma call_sends_one_request_witness :
  is_sync (GetEntry (VStr "nope") VUndefined) = false
  /\ snd (invoke sample_env (GetEntry (VStr "nope") VUndefined) fresh_http)
     = logged "https://cdn.contentful.com/spaces/cfexampleapi/environments/master/entries"
         (VObj [("query", VObj [("sys.id", VStr "nope")])]) fresh_http.
Proof.
  split; [reflexivity|].
  rewrite (call_sends_one_request sample_env (GetEntry (VStr "nope") VUndefined) fresh_http
             eq_refl).
  reflexivity.
Defined.

Lemma get_result_of_response_witness :
  url_missing (configured_base_url silent_env CtxSpace) = false
  /\ nullish VUndefined = true
  /\ fst (get silent_env CtxSpace "" VUndefined fresh_http) = Thrown (TypeError "data").
Proof.
  split; [reflexivity|]. split; [reflexivity|].
  destruct (get_result_of_response silent_env CtxSpace "" VUndefined fresh_http eq_refl)
    as [_ H].
  exact (H VUndefined (or_introl eq_refl) eq_refl).
Defined.

(** *** Errors through the nested handlers *)

Section ClientErrors.
Variable env : Collaborators.

Lemma get_transport_error context path config h error :
  url_missing (configured_base_url env context) = false ->
  http_get env h (request_url env context path) config = inl error ->
  nullish error = false ->
  get env context path config h
  = (Thrown (unwrapped error), logged (request_url env context path) config h).
Proof.
  intros Hurl Hget Hobj. unfold get. rewrite Hurl.
  unfold try_catch, bind, request. fold (request_url env context path).
  rewrite Hget. by apply errorHandler_unwrapped.
Qed.

Lemma getEntries_thrown query h e h' :
  get env CtxEnvironment "entries"
    (createRequestConfig env
       (VObj [("query", normalizeSelect env (or_default (VObj []) query))])) h
  = (Thrown e, h') ->
  nullish e = false ->
  getEntries env query h = (Thrown (unwrapped e), h').
Proof.
  intros Hget Hobj. unfold getEntries, try_catch, bind. rewrite Hget.
  by apply errorHandler_unwrapped.
Qed.

Lemma getEntry_thrown id query h e h' :
  truthy id = true ->
  getEntries env (entry_query id query) h = (Thrown e, h') ->
  nullish e = false ->
  getEntry env id query h = (Thrown (unwrapped e), h').
Proof.
  intros Hid Hget Hobj. unfold getEntry. rewrite Hid. cbn [negb].
  unfold try_catch, bind. fold (entry_query id query). rewrite Hget.
  by apply errorHandler_unwrapped.
Qed.

(** X4: an error of the transport passes one handler per layer: [get]
    throws it unwrapped once, [getEntries] unwraps what [get] threw once
    more, and [getEntry] unwraps what [getEntries] threw a third time; each
    of them after the one request. *)
Theorem transport_error_unwrapped_per_layer (id query : Value) h error :
  url_missing (configured_base_url env CtxEnvironment) = false ->
  nullish error = false ->
  (http_get env h (request_url env CtxEnvironment "entries")
     (createRequestConfig env
        (VObj [("query", normalizeSelect env (or_default (VObj []) query))]))
   = inl error ->
   getEntries env query h
   = (Thrown (unwrapped (unwrapped error)),
      logged (request_url env CtxEnvironment "entries")
        (createRequestConfig env
           (VObj [("query", normalizeSelect env (or_default (VObj []) query))])) h))
  /\ (truthy id = true ->
      http_get env h (request_url env CtxEnvironment "entries")
        (createRequestConfig env
           (VObj [("query", normalizeSelect env (entry_query id query))]))
      = inl error ->
      getEntry env id query h
      = (Thrown (unwrapped (unwrapped (unwrapped error))),
         logged (request_url env CtxEnvironment "entries")
           (createRequestConfig env
              (VObj [("query", normalizeSelect env (entry_query id query))])) h)).
Proof.
  intros Hurl Hobj. split.
  - intros Hget. apply getEntries_thrown; [|by apply unwrapped_not_nullish].
    by apply get_transport_error.
  - intros Hid Hget. apply getEntry_thrown; [done| |by do 2 apply unwrapped_not_nullish].
    apply getEntries_thrown; [|by apply unwrapped_not_nullish].
    by apply get_transport_error.
Qed.

(** X5: without a base URL for the environment, every method that
    requests in the environment ([getContentType], [getContentTypes],
    [getEntries], [getEntry] of a truthy id, [getAsset], [getAssets],
    [getLocales]) throws the configuration error as it is, also through
    the handlers of [getEntries] and [getEntry], and sends nothing. *)
Theorem environment_methods_need_base_url (c : Call) h :
  needs_environment c = true ->
  url_missing (configured_base_url env CtxEnvironment) = true ->
  invoke env c h = (Thrown (mkError "Please define baseUrl for environment"), h).
Proof.
  intros Hc Hurl.
  assert (Hget : forall path config,
             get env CtxEnvironment path config h
             = (Thrown (mkError "Please define baseUrl for environment"), h)).
  { intros path config. unfold get. by rewrite Hurl. }
  assert (Hentries : forall query,
             getEntries env query h
             = (Thrown (mkError "Please define baseUrl for environment"), h)).
  { intros query. unfold getEntries, try_catch, bind. rewrite Hget.
    apply errorHandler_mkError. }
  destruct c; try discriminate Hc; cbn [invoke];
    try (unfold plain, bind, getContentType, getContentTypes, getAsset, getAssets, getLocales;
         by rewrite Hget).
  - cbn in Hc. unfold getEntry. rewrite Hc. cbn [negb].
    unfold try_catch, bind. rewrite Hentries. apply errorHandler_mkError.
  - apply Hentries.
Qed.

(** X6: when the entries query of [getEntry] returns a collection whose
    [items] array is not empty, [getEntry] returns its first item, with the
    store of the collection, and ignores the others. *)
Theorem getEntry_returns_first_item (id query : Value) h response h' first others :
  truthy id = true ->
  getEntries env (entry_query id query) h = (Returned response, h') ->
  prop "items" (r_val response) = VArr (first :: others) ->
  getEntry env id query h
  = (Returned {| r_val := first; r_store := r_store response |}, h').
Proof.
  intros Hid Hquery Hitems. unfold getEntry. rewrite Hid. cbn [negb].
  unfold try_catch, bind. fold (entry_query id query). rewrite Hquery.
  assert (Hobj : nullish (r_val response) = false).
  { destruct (r_val response); try done; by cbn in Hitems. }
  rewrite member_object by done. rewrite Hitems.
  by rewrite member_object.
Qed.


(** X10: [getEntries] is [parseEntries] after [get]: the collection it
    returns is what [parseEntries] makes of the body that [get] delivered,
    under the same link options. *)
Theorem getEntries_parses_body (query : Value) h body h' :
  get env CtxEnvironment "entries"
    (createRequestConfig env
       (VObj [("query", normalizeSelect env (or_default (VObj []) query))])) h
  = (Returned body, h') ->
  getEntries env query h = (Returned (parseEntries env body), h').
Proof.
  intros Hget. unfold getEntries, parseEntries, try_catch, bind. by rewrite Hget.
Qed.
End ClientErrors.

(** *** Object spreads: the query of [getEntry], the options of [sync] *)

Lemma get_prop_set_prop_ne name other v ps :
  other <> name -> get_prop name (set_prop other v ps) = get_prop name ps.
Proof.
  intros Hne. induction ps as [|[n w] ps IH]; cbn.
  - by rewrite decide_False.
  - destruct (decide (n = other)) as [->|Hno]; cbn.
    + by rewrite !decide_False.
    + destruct (decide (n = name)); [done|apply IH].
Qed.

Lemma get_prop_app name (ps qs : Props) :
  get_prop name (ps ++ qs)%list
  = match get_prop name ps with Some v => Some v | None => get_prop name qs end.
Proof.
  induction ps as [|[n w] ps IH]; cbn; [done|]. by destruct (decide (n = name)).
Qed.

(** A spread keeps the properties of the object spread into, except those
    the spread object has: there the last binding wins. *)
Lemma get_prop_spread name (b : Props) : forall a : Props,
  get_prop name (spread a b)
  = match last_prop name b with Some v => Some v | None => get_prop name a end.
Proof.
  unfold spread, last_prop.
  induction b as [|[n v] b IH]; intros a; cbn [foldl]; [done|].
  rewrite IH, reverse_cons, get_prop_app.
  destruct (get_prop name (reverse b)); [done|]. cbn.
  destruct (decide (n = name)) as [->|Hne].
  - apply get_set_prop.
  - by apply get_prop_set_prop_ne.
Qed.

Lemma own_props_or_default_empty query :
  own_props (or_default (VObj []) query) = own_props query.
Proof. by destruct query. Qed.

(** X8: in the query [{ 'sys.id': id, ...query }] that [getEntry] sends,
    a ['sys.id'] of the caller's query replaces the id argument; without
    one the id argument stands; every other parameter is the caller's. *)
Theorem entry_query_precedence (env : Collaborators) (id query : Value) h :
  (truthy id = true ->
   snd (getEntry env id query h) = snd (getEntries env (entry_query id query) h))
  /\ (last_prop "sys.id" (own_props query) = None ->
      prop "sys.id" (entry_query id query) = id)
  /\ (forall v, last_prop "sys.id" (own_props query) = Some v ->
                prop "sys.id" (entry_query id query) = v)
  /\ (forall name, name <> "sys.id" ->
                   prop name (entry_query id query)
                   = default VUndefined (last_prop name (own_props query))).
Proof.
  split; [|split; [|split]].
  - intros Hid. by rewrite snd_getEntry, Hid.
  - intros Hnone. unfold entry_query. cbn [prop].
    rewrite get_prop_spread, own_props_or_default_empty, Hnone. cbn.
    by rewrite decide_True.
  - intros v Hsome. unfold entry_query. cbn [prop].
    by rewrite get_prop_spread, own_props_or_default_empty, Hsome.
  - intros name Hne. unfold entry_query. cbn [prop].
    rewrite get_prop_spread, own_props_or_default_empty.
    destruct (last_prop name (own_props query)); [done|]. cbn.
    by rewrite decide_False.
Qed.

Lemma entry_query_precedence_witness :
  last_prop "sys.id" (own_props (VObj [("sys.id", VStr "other"); ("include", VNum 2)]))
  = Some (VStr "other")
  /\ prop "sys.id" (entry_query (VStr "mine") (VObj [("sys.id", VStr "other"); ("include", VNum 2)]))
     = VStr "other".
Proof.
  split; [reflexivity|].
  destruct (entry_query_precedence sample_env (VStr "mine")
              (VObj [("sys.id", VStr "other"); ("include", VNum 2)]) fresh_http)
    as (_ & _ & H & _).
  exact (H (VStr "other") eq_refl).
Defined.

(** X9: [sync] sends nothing itself: it hands the query, the options and
    the instance switched to the environment base URL to [pagedSync].  In
    the options the caller's properties win over the global link options,
    and [paginate] is [true] only when no options object is passed at all:
    an options object without [paginate] leaves it [undefined]. *)
Theorem sync_options_precedence (env : Collaborators) (query options : Value) h :
  sync env query options h
  = pagedSync env (or_default (VObj []) query)
      (sync_options (getGlobalOptions env (or_default (VObj []) query)) options)
      (switchToEnvironment env h)
  /\ sent (switchToEnvironment env h) = sent h
  /\ forall g,
       prop "paginate" (sync_options g VUndefined) = VBool true
       /\ (options <> VUndefined ->
           prop "paginate" (sync_options g options)
           = default VUndefined (last_prop "paginate" (own_props options)))
       /\ prop "resolveLinks" (sync_options g options)
          = default (VBool (resolveLinks g)) (last_prop "resolveLinks" (own_props options))
       /\ prop "removeUnresolved" (sync_options g options)
          = default (VBool (removeUnresolved g))
              (last_prop "removeUnresolved" (own_props options)).
Proof.
  split; [reflexivity|]. split; [reflexivity|].
  intros g. split; [reflexivity|].
  assert (Hlast : forall name, name <> "paginate" ->
             last_prop name (own_props (or_default (VObj [("paginate", VBool true)]) options))
             = last_prop name (own_props options)).
  { intros name Hne. destruct options; try done.
    unfold last_prop. cbn. by rewrite decide_False. }
  split; [|split].
  - intros Hdef. unfold sync_options. cbn [prop]. rewrite get_prop_spread.
    replace (or_default (VObj [("paginate", VBool true)]) options) with options
      by (by destruct options).
    by destruct (last_prop "paginate" (own_props options)).
  - unfold sync_options. cbn [prop]. rewrite get_prop_spread, Hlast by done.
    by destruct (last_prop "resolveLinks" (own_props options)).
  - unfold sync_options. cbn [prop]. rewrite get_prop_spread, Hlast by done.
    by destruct (last_prop "removeUnresolved" (own_props options)).
Qed.

Lemma sync_options_precedence_witness :
  VObj [("resolveLinks", VBool false)] <> VUndefined
  /\ prop "paginate" (sync_options sample_options (VObj [("resolveLinks", VBool false)]))
     = VUndefined
  /\ prop "resolveLinks" (sync_options sample_options (VObj [("resolveLinks", VBool false)]))
     = VBool false.
Proof.
  assert (Hobj : VObj [("resolveLinks", VBool false)] <> VUndefined) by discriminate.
  split; [exact Hobj|].
  destruct (sync_options_precedence sample_env VUndefined
              (VObj [("resolveLinks", VBool false)]) fresh_http) as (_ & _ & H).
  destruct (H sample_options) as (_ & Hpag & Hres & _).
  split; [exact (Hpag Hobj)|exact Hres].
Defined.

(** *** The error and result theorems at sample clients *)

Lemma transport_error_unwrapped_per_layer_witness :
  url_missing (configured_base_url failing_env CtxEnvironment) = false
  /\ nullish nested_error = false
  /\ fst (get failing_env CtxEnvironment "entries" (VObj [("query", VObj [])]) fresh_http)
     = Thrown (VObj [("message", VStr "not here");
                     ("data", VObj [("requestId", VStr "r1")])])
  /\ fst (getEntries failing_env VUndefined fresh_http)
     = Thrown (VObj [("requestId", VStr "r1")]).
Proof.
  split; [reflexivity|]. split; [reflexivity|]. split; [reflexivity|].
  destruct (transport_error_unwrapped_per_layer failing_env (VStr "x") VUndefined fresh_http
              nested_error eq_refl eq_refl) as [H _].
  rewrite (H eq_refl). reflexivity.
Defined.

Lemma environment_methods_need_base_url_witness :
  needs_environment (GetEntry (VStr "x") VUndefined) = true
  /\ url_missing (configured_base_url no_url_env CtxEnvironment) = true
  /\ invoke no_url_env (GetEntry (VStr "x") VUndefined) fresh_http
     = (Thrown (mkError "Please define baseUrl for environment"), fresh_http).
Proof.
  split; [reflexivity|]. split; [reflexivity|].
  apply (environment_methods_need_base_url no_url_env (GetEntry (VStr "x") VUndefined)
           fresh_http eq_refl eq_refl).
Defined.

Lemma getEntry_returns_first_item_witness :
  truthy (VStr "zoo") = true
  /\ fst (getEntry raw_env (VStr "zoo") (VObj [("sys.id", VUndefined)]) fresh_http)
     = Returned (unlinked zoo).
Proof.
  split; [reflexivity|].
  rewrite (getEntry_returns_first_item raw_env (VStr "zoo") (VObj [("sys.id", VUndefined)])
             fresh_http (unlinked sample_payload)
             (snd (getEntries raw_env
                     (entry_query (VStr "zoo") (VObj [("sys.id", VUndefined)])) fresh_http))
             zoo [cat; dog] eq_refl eq_refl eq_refl).
  reflexivity.
Defined.


Lemma getEntries_parses_body_witness :
  fst (get sample_env CtxEnvironment "entries" (VObj [("query", VObj [])]) fresh_http)
  = Returned sample_payload
  /\ fst (getEntries sample_env VUndefined fresh_http)
     = Returned (parseEntries sample_env sample_payload).
Proof.
  split; [reflexivity|].
  rewrite (getEntries_parses_body sample_env VUndefined fresh_http sample_payload
             (snd (getEntries sample_env VUndefined fresh_http)) eq_refl).
  reflexivity.
Defined.

(** *** Sequences of calls *)

(** X11: after any sequence of calls other than [sync] on one client,
    [http.defaults.baseURL] is what it was, no logged request was lost or
    reordered, and at most one request per call was added. *)
Theorem calls_extend_request_log (env : Collaborators) (cs : list Call) : forall h,
  Forall (fun c => is_sync c = false) cs ->
  baseURL (run_calls env cs h) = baseURL h
  /\ exists added,
       sent (run_calls env cs h) = (added ++ sent h)%list
       /\ (length added <= length cs)%nat.
Proof.
  induction cs as [|c cs IH]; intros h Hcs.
  - split; [done|]. by exists [].
  - apply Forall_cons in Hcs as [Hc Hcs]. cbn [run_calls foldl].
    destruct (IH (snd (invoke env c h)) Hcs) as (Hbase & added & Hsent & Hlen).
    fold (run_calls env cs (snd (invoke env c h))).
    rewrite Hbase, Hsent. rewrite (invoke_post_state env c h Hc).
    destruct (call_request env c) as [[url config]|].
    + destruct (url_missing _).
      * split; [done|]. exists added. split; [done|]. cbn. lia.
      * split; [done|]. exists (added ++ [(url, config)])%list.
        split; [by rewrite <- app_assoc|]. rewrite length_app. cbn. lia.
    + split; [done|]. exists added. split; [done|]. cbn. lia.
Qed.

Lemma calls_extend_request_log_witness :
  Forall (fun c => is_sync c = false)
    [GetSpace; GetEntry (VStr "") VUndefined; GetAssets VUndefined]
  /\ length (sent (run_calls sample_env
                     [GetSpace; GetEntry (VStr "") VUndefined; GetAssets VUndefined]
                     fresh_http)) = 2%nat.
Proof.
  assert (Hcs : Forall (fun c => is_sync c = false)
                  [GetSpace; GetEntry (VStr "") VUndefined; GetAssets VUndefined])
    by (repeat constructor).
  split; [exact Hcs|].
  destruct (calls_extend_request_log sample_env
              [GetSpace; GetEntry (VStr "") VUndefined; GetAssets VUndefined]
              fresh_http Hcs) as (_ & added & Hsent & _).
  reflexivity.
Defined.
